(** * lacpd: the mailbox queue, the timer source and the daemon's main loop

    A shallow embedding of [src/lacpd.c] and of the queue declared in
    [src/cyclone/include/nemo/mqueue.h].

    - [Mqueue]  : the mailbox queue ([mqueue_t], [mqueue_send], [mqueue_wait])
                  and its interleaved execution by producers and one consumer.
    - [Lacpd]   : the process state touched by [timerHandler], [lacpd_init]
                  and the signal loop of [main].
    - [Options] : [parse_options].
    - [Daemon]  : [lacpd_ovs_main_thread], [halon_lacpd_exit] and [main]. *)

From Stdlib Require Import ZArith String List Lia.
From stdpp Require Import base option list.
Import ListNotations.

Local Open Scope nat_scope.

(* ===================================================================== *)
(** ** The mailbox queue (mqueue.h)                                       *)
(* ===================================================================== *)

Module Mqueue.

(** Who may hold [q_mutex]: one of the producer threads, or the single
    consumer. *)
Inductive owner :=
| Producer (t : nat)
| Consumer.

Section Mailbox.
Context {A : Type}.

(** [mqueue_t] of mqueue.h.  The chain of [qelem_t] cells linked between
    the two sentinels [q_head] and [q_tail] is kept as the list of their
    [q_data], read from [q_head.q_forw] towards [q_tail]; [q_mutex] is the
    current holder of the lock; [q_avail] is the count of the semaphore. *)
Record mqueue_t := Build_mqueue {
  q_list  : list A;
  q_mutex : option owner;
  q_avail : nat
}.

(** *** Primitive operations on the three parts of the queue *)

(** pthread_mutex_lock: [None] when the lock is taken (the caller waits). *)
Definition mutex_lock (o : owner) (q : mqueue_t) : option mqueue_t :=
  match q_mutex q with
  | None => Some (Build_mqueue (q_list q) (Some o) (q_avail q))
  | Some _ => None
  end.

Definition mutex_unlock (q : mqueue_t) : mqueue_t :=
  Build_mqueue (q_list q) None (q_avail q).

Definition sem_post (q : mqueue_t) : mqueue_t :=
  Build_mqueue (q_list q) (q_mutex q) (S (q_avail q)).

(** sem_wait: [None] while the count is zero (the caller waits). *)
Definition sem_wait (q : mqueue_t) : option mqueue_t :=
  match q_avail q with
  | O => None
  | S n => Some (Build_mqueue (q_list q) (q_mutex q) n)
  end.

(** Link a cell in front of the [q_tail] sentinel. *)
Definition insert_tail (d : A) (q : mqueue_t) : mqueue_t :=
  Build_mqueue (q_list q ++ [d]) (q_mutex q) (q_avail q).

(** Unlink the cell that follows the [q_head] sentinel. *)
Definition remove_head (q : mqueue_t) : option (A * mqueue_t) :=
  match q_list q with
  | [] => None
  | d :: l => Some (d, Build_mqueue l (q_mutex q) (q_avail q))
  end.

(** Modelled from the spec: the body of [mqueue_init] is not part of the
    sources at hand; the queue starts with no record, a free mutex and a
    semaphore count of zero. *)
Definition mqueue_init : mqueue_t := Build_mqueue [] None 0.

(** *** [mqueue_send], one step at a time *)

(** Where a producer stands inside [mqueue_send]. *)
Inductive send_pc :=
| SendIdle                (* not inside a call *)
| SendLocked (d : A)      (* holds the mutex, record not linked yet *)
| SendLinked (d : A)      (* record linked at the tail, semaphore not posted *)
| SendPosted (d : A).     (* semaphore posted, mutex still held *)

(** Modelled from the spec: the body of [mqueue_send] is not part of the
    sources at hand (mqueue.h only declares it).  The spec's enqueue takes
    the mutex, appends to the tail, increments the semaphore and returns;
    the whole of it is atomic with respect to the mutex.  [d] is the
    argument of the call, read when the call starts. *)
Definition send_step (t : nat) (d : A) (pc : send_pc) (q : mqueue_t)
  : option (send_pc * mqueue_t) :=
  match pc with
  | SendIdle =>
      match mutex_lock (Producer t) q with
      | Some q' => Some (SendLocked d, q')
      | None => None
      end
  | SendLocked d' => Some (SendLinked d', insert_tail d' q)
  | SendLinked d' => Some (SendPosted d', sem_post q)
  | SendPosted d' => Some (SendIdle, mutex_unlock q)
  end.

(** Modelled from the spec: the net effect of one uncontended call of
    [mqueue_send] (see [mqueue_send_steps] below): the record is appended
    to the tail and the semaphore incremented. *)
Definition mqueue_send (d : A) (q : mqueue_t) : mqueue_t :=
  Build_mqueue (q_list q ++ [d]) (q_mutex q) (S (q_avail q)).

(** *** [mqueue_wait], one step at a time *)

(** Where the consumer stands inside [mqueue_wait]. *)
Inductive wait_pc :=
| WaitIdle                (* not inside a call *)
| WaitTaken               (* semaphore decremented, mutex not held yet *)
| WaitLocked              (* holds the mutex, head not unlinked yet *)
| WaitUnlinked (d : A).   (* head unlinked, mutex still held *)

(** Modelled from the spec: the body of [mqueue_wait] is not part of the
    sources at hand (mqueue.h only declares it).  The spec's dequeue blocks
    until the semaphore is non-zero, then pops the head under the mutex and
    returns the record.  The third component is the record handed back to
    the caller when the call returns. *)
Definition wait_step (pc : wait_pc) (q : mqueue_t)
  : option (wait_pc * mqueue_t * option A) :=
  match pc with
  | WaitIdle =>
      match sem_wait q with
      | Some q' => Some (WaitTaken, q', None)
      | None => None
      end
  | WaitTaken =>
      match mutex_lock Consumer q with
      | Some q' => Some (WaitLocked, q', None)
      | None => None
      end
  | WaitLocked =>
      match remove_head q with
      | Some (d, q') => Some (WaitUnlinked d, q', None)
      | None => None
      end
  | WaitUnlinked d => Some (WaitIdle, mutex_unlock q, Some d)
  end.

(** Modelled from the spec: the net effect of one call of [mqueue_wait]
    that does not have to wait; [None] when the semaphore is zero (the
    caller would block) or no cell follows [q_head]. *)
Definition mqueue_wait (q : mqueue_t) : option (A * mqueue_t) :=
  match q_avail q, q_list q with
  | S n, d :: l => Some (d, Build_mqueue l (q_mutex q) n)
  | _, _ => None
  end.

(** [mqueue_send] called for each record of [ds] in turn. *)
Definition mqueue_send_all (ds : list A) (q : mqueue_t) : mqueue_t :=
  fold_left (fun q d => mqueue_send d q) ds q.

(** [mqueue_wait] called [n] times in a row, as long as it does not have to
    wait; the records it handed back, in order, and the queue left. *)
Fixpoint mqueue_drain (n : nat) (q : mqueue_t) : list A * mqueue_t :=
  match n with
  | O => ([], q)
  | S n' =>
      match mqueue_wait q with
      | Some (d, q') =>
          let '(ds, q'') := mqueue_drain n' q' in (d :: ds, q'')
      | None => ([], q)
      end
  end.

(** *** Producers and the consumer running together *)

(** The queue, the position of every producer thread and of the consumer,
    and two histories kept for the statements only: [sent] lists the
    records in the order the calls of [mqueue_send] returned, [received]
    in the order the calls of [mqueue_wait] returned. *)
Record system := Build_system {
  mq       : mqueue_t;
  senders  : list send_pc;
  receiver : wait_pc;
  sent     : list A;
  received : list A
}.

(** What the scheduler picks next: producer [t] (starting a call with
    argument [d] if it is idle), or the consumer. *)
Inductive action :=
| SendStep (t : nat) (d : A)
| WaitStep.

Definition actor (a : action) : owner :=
  match a with
  | SendStep t _ => Producer t
  | WaitStep => Consumer
  end.

Definition returned_by (pc : send_pc) : list A :=
  match pc with
  | SendPosted d => [d]
  | _ => []
  end.

(** One step of the chosen thread; [None] when that thread cannot move
    (it waits for the mutex or the semaphore, or there is no such
    thread). *)
Definition step (a : action) (s : system) : option system :=
  match a with
  | SendStep t d =>
      match senders s !! t with
      | Some pc =>
          match send_step t d pc (mq s) with
          | Some (pc', q') =>
              Some (Build_system q' (<[t := pc']> (senders s)) (receiver s)
                      (sent s ++ returned_by pc) (received s))
          | None => None
          end
      | None => None
      end
  | WaitStep =>
      match wait_step (receiver s) (mq s) with
      | Some (pc', q', r) =>
          Some (Build_system q' (senders s) pc' (sent s)
                  (received s ++ match r with Some d => [d] | None => [] end))
      | None => None
      end
  end.

(** A thread that cannot move stays where it is. *)
Definition exec (s : system) (a : action) : system :=
  match step a s with
  | Some s' => s'
  | None => s
  end.

Definition run (acts : list action) (s : system) : system :=
  fold_left exec acts s.

(** [n] producers and the consumer, all outside the queue's functions. *)
Definition boot (n : nat) : system :=
  Build_system mqueue_init (replicate n SendIdle) WaitIdle [] [].

(** No enqueue and no dequeue in progress. *)
Definition quiescent (s : system) : Prop :=
  Forall (fun pc => pc = SendIdle) (senders s) /\ receiver s = WaitIdle.

(** *** Vocabulary of the invariant *)

(** Between the lock and the unlock of [mqueue_send]. *)
Definition send_inside (pc : send_pc) : bool :=
  match pc with
  | SendIdle => false
  | _ => true
  end.

(** Between the lock and the unlock of [mqueue_wait]. *)
Definition wait_inside (pc : wait_pc) : bool :=
  match pc with
  | WaitLocked | WaitUnlinked _ => true
  | _ => false
  end.

Definition in_critical (s : system) (o : owner) : bool :=
  match o with
  | Producer t =>
      match senders s !! t with
      | Some pc => send_inside pc
      | None => false
      end
  | Consumer => wait_inside (receiver s)
  end.

(** Where the producer that holds the mutex stands ([SendIdle] when no
    producer holds it). *)
Definition holder_pc (s : system) : send_pc :=
  match q_mutex (mq s) with
  | Some (Producer t) => default SendIdle (senders s !! t)
  | _ => SendIdle
  end.

(** The record a producer has linked while its call has not returned. *)
Definition linked (pc : send_pc) : list A :=
  match pc with
  | SendLinked d | SendPosted d => [d]
  | _ => []
  end.

(** The record the consumer has unlinked while its call has not returned. *)
Definition unlinked (pc : wait_pc) : list A :=
  match pc with
  | WaitUnlinked d => [d]
  | _ => []
  end.

(** Records linked whose post is still to come. *)
Definition posts_pending (s : system) : nat :=
  match holder_pc s with
  | SendLinked _ => 1
  | _ => 0
  end.

(** Decrements of the semaphore whose unlink is still to come. *)
Definition pops_pending (s : system) : nat :=
  match receiver s with
  | WaitTaken | WaitLocked => 1
  | _ => 0
  end.

(** What holds of the system after any number of steps. *)
Record inv (s : system) : Prop := Build_inv {
  inv_mutex : forall o, in_critical s o = true <-> q_mutex (mq s) = Some o;
  inv_count : q_avail (mq s) + posts_pending s + pops_pending s
              = length (q_list (mq s));
  inv_hist  : sent s ++ linked (holder_pc s)
              = received s ++ unlinked (receiver s) ++ q_list (mq s);
  inv_tail  : forall d, linked (holder_pc s) = [d] ->
              exists l, q_list (mq s) = l ++ [d]
}.

End Mailbox.

Arguments mqueue_t : clear implicits.
Arguments send_pc : clear implicits.
Arguments wait_pc : clear implicits.
Arguments system : clear implicits.
Arguments action : clear implicits.

(** A schedule of two producers and the consumer.  Producer 0 sends 1 while
    producer 1, which wants to send 2, and the consumer have to wait; then
    producer 1 sends 2 and the consumer takes one record. *)
Definition two_producers : list (action nat) :=
  [ SendStep 0 1; SendStep 1 2; SendStep 0 1; WaitStep; SendStep 0 1;
    WaitStep; WaitStep; SendStep 0 1;
    SendStep 1 2; SendStep 1 2; SendStep 1 2; SendStep 1 2;
    WaitStep; WaitStep; WaitStep ].

End Mqueue.

(* ===================================================================== *)
(** ** The daemon: process state, timer handler, initialisation, main loop *)
(* ===================================================================== *)

Module Lacpd.
Import Mqueue.

Local Open Scope Z_scope.
Local Open Scope string_scope.

(** Signal numbers of <signal.h> (Linux). *)
Definition SIGINT  : Z := 2.
Definition SIGALRM : Z := 14.
Definition SIGTERM : Z := 15.

(** Where a log line goes: the RDEBUG macro of mlacp_debug.h with its level,
    or one of the VLOG macros ([VLL_EMER] is the level of VLOG_FATAL). *)
Inductive log_level :=
| DL_ERROR
| VLL_EMER
| VLL_ERR
| VLL_WARN
| VLL_INFO.

Record log_entry := Build_log {
  log_lvl  : log_level;
  log_fmt  : string;
  log_args : list Z
}.

(** [ML_event] is declared in headers outside the sources at hand.  The
    timer handler zero-fills the whole record and then stores
    [sender.peer]; the record keeps that field and, as [other_bytes], every
    byte of the structure after it. *)
Record ML_event := Build_event {
  sender_peer : Z;
  other_bytes : list Z
}.

(** The start routines handed to pthread_create in lacpd.c. *)
Inductive thread_start :=
| lacpd_protocol_thread
| lacpd_ovs_main_thread.

Record itimerval := Build_itimerval {
  it_interval_sec  : Z;
  it_interval_usec : Z;
  it_value_sec     : Z;
  it_value_usec    : Z
}.

(** The part of the process state that lacpd.c reads or writes. *)
Record world := Build_world {
  lacpd_shutdown  : Z;                    (* the global flag tested by main *)
  ml_timer_index  : Z;                    (* the global read by timerHandler *)
  ml_queue        : mqueue_t ML_event;    (* the mailbox behind ml_send_event *)
  vlog            : list log_entry;       (* lines written so far *)
  heap            : list (option ML_event);
    (* what the coming calls of malloc(sizeof(ML_event)) return: NULL, or a
       block with whatever bytes it holds; no entry left: NULL *)
  sig_blocked     : bool;                 (* every signal blocked in this thread *)
  threads         : list thread_start;    (* threads created so far *)
  event_rcvr      : bool;                 (* hc_enet_init_event_rcvr was called *)
  ovsdb_if        : option string;        (* lacpd_ovsdb_if_init was called with *)
  commands        : list string;          (* unixctl commands registered *)
  itimer          : option itimerval      (* ITIMER_REAL, once armed *)
}.

Definition with_shutdown (v : Z) (w : world) : world :=
  Build_world v (ml_timer_index w) (ml_queue w) (vlog w) (heap w)
    (sig_blocked w) (threads w) (event_rcvr w) (ovsdb_if w) (commands w) (itimer w).

Definition with_queue (q : mqueue_t ML_event) (w : world) : world :=
  Build_world (lacpd_shutdown w) (ml_timer_index w) q (vlog w) (heap w)
    (sig_blocked w) (threads w) (event_rcvr w) (ovsdb_if w) (commands w) (itimer w).

Definition with_vlog (l : list log_entry) (w : world) : world :=
  Build_world (lacpd_shutdown w) (ml_timer_index w) (ml_queue w) l (heap w)
    (sig_blocked w) (threads w) (event_rcvr w) (ovsdb_if w) (commands w) (itimer w).

Definition with_heap (h : list (option ML_event)) (w : world) : world :=
  Build_world (lacpd_shutdown w) (ml_timer_index w) (ml_queue w) (vlog w) h
    (sig_blocked w) (threads w) (event_rcvr w) (ovsdb_if w) (commands w) (itimer w).

Definition with_sig_blocked (b : bool) (w : world) : world :=
  Build_world (lacpd_shutdown w) (ml_timer_index w) (ml_queue w) (vlog w) (heap w)
    b (threads w) (event_rcvr w) (ovsdb_if w) (commands w) (itimer w).

Definition with_threads (t : list thread_start) (w : world) : world :=
  Build_world (lacpd_shutdown w) (ml_timer_index w) (ml_queue w) (vlog w) (heap w)
    (sig_blocked w) t (event_rcvr w) (ovsdb_if w) (commands w) (itimer w).

Definition with_event_rcvr (b : bool) (w : world) : world :=
  Build_world (lacpd_shutdown w) (ml_timer_index w) (ml_queue w) (vlog w) (heap w)
    (sig_blocked w) (threads w) b (ovsdb_if w) (commands w) (itimer w).

Definition with_ovsdb_if (o : option string) (w : world) : world :=
  Build_world (lacpd_shutdown w) (ml_timer_index w) (ml_queue w) (vlog w) (heap w)
    (sig_blocked w) (threads w) (event_rcvr w) o (commands w) (itimer w).

Definition with_commands (c : list string) (w : world) : world :=
  Build_world (lacpd_shutdown w) (ml_timer_index w) (ml_queue w) (vlog w) (heap w)
    (sig_blocked w) (threads w) (event_rcvr w) (ovsdb_if w) c (itimer w).

Definition with_itimer (t : option itimerval) (w : world) : world :=
  Build_world (lacpd_shutdown w) (ml_timer_index w) (ml_queue w) (vlog w) (heap w)
    (sig_blocked w) (threads w) (event_rcvr w) (ovsdb_if w) (commands w) t.

(** *** A state monad with process exit *)

(** A C function either returns a value or ends the process with a status. *)
Inductive res (A : Type) :=
| Ret (a : A)
| Exit (status : Z).
Arguments Ret {A} a.
Arguments Exit {A} status.

Definition M (A : Type) : Type := world -> res A * world.

Definition ret {A} (a : A) : M A := fun w => (Ret a, w).

Definition bind {A B} (m : M A) (k : A -> M B) : M B :=
  fun w =>
    match m w with
    | (Ret a, w') => k a w'
    | (Exit st, w') => (Exit st, w')
    end.

Definition exit {A} (status : Z) : M A := fun w => (Exit status, w).

Definition gets {A} (f : world -> A) : M A := fun w => (Ret (f w), w).

Definition modify (f : world -> world) : M unit := fun w => (Ret tt, f w).

Declare Scope lacpd_scope.
Delimit Scope lacpd_scope with lacpd.
Notation "x <- m ;; k" := (bind m (fun x => k))
  (at level 100, m at next level, right associativity) : lacpd_scope.
Notation "m ;;; k" := (bind m (fun _ => k))
  (at level 100, right associativity) : lacpd_scope.
Local Open Scope lacpd_scope.

(** *** Library calls *)

Definition log_line (lvl : log_level) (fmt : string) (args : list Z) : M unit :=
  modify (fun w => with_vlog (vlog w ++ [Build_log lvl fmt args]) w).

(** Modelled from the spec: the RDEBUG macro comes from mlacp_debug.h, which
    is not part of the sources at hand; the spec has the failure logged. *)
Definition RDEBUG (lvl : log_level) (fmt : string) : M unit :=
  log_line lvl fmt [].

Definition VLOG_ERR (fmt : string) (args : list Z) : M unit := log_line VLL_ERR fmt args.
Definition VLOG_WARN (fmt : string) (args : list Z) : M unit := log_line VLL_WARN fmt args.
Definition VLOG_INFO (fmt : string) (args : list Z) : M unit := log_line VLL_INFO fmt args.

(** malloc(sizeof(ML_event)): the next entry of [heap]. *)
Definition malloc_event : M (option ML_event) :=
  fun w =>
    match heap w with
    | [] => (Ret None, w)
    | b :: h => (Ret b, with_heap h w)
    end.

(** memset(p, 0, sizeof(ML_event)) *)
Definition memset_zero (e : ML_event) : ML_event :=
  Build_event 0 (map (fun _ => 0) (other_bytes e)).

Definition set_sender_peer (v : Z) (e : ML_event) : ML_event :=
  Build_event v (other_bytes e).

(** Modelled from the spec: [ml_send_event] is defined outside the sources
    at hand; it is the enqueue of the spec, onto the daemon's mailbox. *)
Definition ml_send_event (e : ML_event) : M unit :=
  modify (fun w => with_queue (mqueue_send e (ml_queue w)) w).

(** *** lacpd.c *)

Definition timerHandler : M unit :=
  timerEvent <- malloc_event ;;
  match timerEvent with
  | None => RDEBUG DL_ERROR "Out of memory for LACP timer message.\n"
  | Some blk =>
      idx <- gets ml_timer_index ;;
      ml_send_event (set_sender_peer idx (memset_zero blk))
  end.

(** [lacpd_init]; [rc] is what pthread_create returns.  The block between
    #if 0 and #endif, which would create the protocol thread, is not
    compiled and has no counterpart here. *)
Definition lacpd_init (db_path : string) (rc : Z) : M unit :=
  modify (with_event_rcvr true) ;;;
  modify (with_sig_blocked true) ;;;
  modify (with_ovsdb_if (Some db_path)) ;;;
  modify (fun w => with_commands (commands w ++ ["lacpd/dump"]) w) ;;;
  (if Z.eqb rc 0
   then modify (fun w => with_threads (threads w ++ [lacpd_ovs_main_thread]) w)
   else VLOG_ERR "pthread_create for OVSDB i/f thread failed! rc=%d" [rc] ;;;
        exit (- rc)).

(** The timer set up by [main]; [rc] is what setitimer returns. *)
Definition start_timer (rc : Z) : M unit :=
  let timerVal := Build_itimerval 1 0 1 0 in
  if Z.eqb rc 0
  then modify (with_itimer (Some timerVal))
  else VLOG_ERR "lacpd main: Timer start failed!\n" [].

(** The body of the switch in [main]'s loop, for the signal [signum] that
    sigwait handed back. *)
Definition on_signal (signum : Z) : M unit :=
  if Z.eqb signum SIGALRM then timerHandler
  else if Z.eqb signum SIGTERM || Z.eqb signum SIGINT then
    VLOG_WARN "%s, sig %d caught" [signum] ;;;
    modify (with_shutdown 1)
  else VLOG_INFO "Ignoring signal %d.\n" [signum].

(** How the wait loop stands once the signals given to it are used up. *)
Inductive loop_state :=
| LoopExited      (* the condition failed: main goes on to return 0 *)
| LoopWaiting.    (* inside sigwait, waiting for the next signal *)

(** while (!lacpd_shutdown) { sigwait(..., &signum); switch (signum) ... }
    run on the signals [sigs] that sigwait hands back, in order. *)
Fixpoint signal_loop (sigs : list Z) : M loop_state :=
  fun w =>
    if Z.eqb (lacpd_shutdown w) 0 then
      match sigs with
      | [] => (Ret LoopWaiting, w)
      | signum :: rest => (on_signal signum ;;; signal_loop rest) w
      end
    else (Ret LoopExited, w).

(** The end of [main], from the arming of the timer on: [Ret (Some 0)] is
    main returning 0, [Ret None] is main still inside sigwait. *)
Definition main_tail (rc_timer : Z) (sigs : list Z) : M (option Z) :=
  start_timer rc_timer ;;;
  st <- signal_loop sigs ;;
  match st with
  | LoopExited => ret (Some 0)
  | LoopWaiting => ret None
  end.

(** *** Vocabulary of the statements *)

#[global] Instance thread_start_eq_dec : EqDecision thread_start.
Proof. solve_decision. Defined.

(** The coming call of malloc returns NULL. *)
Definition malloc_fails (w : world) : bool :=
  match heap w with
  | Some _ :: _ => false
  | _ => true
  end.

(** The line written by [timerHandler] when malloc returns NULL. *)
Definition oom_line : log_entry :=
  Build_log DL_ERROR "Out of memory for LACP timer message.\n" [].

(** The record built by [timerHandler] in the block [blk]: every byte zero
    but [sender.peer], which holds the timer index [idx]. *)
Definition timer_event (idx : Z) (blk : ML_event) : ML_event :=
  Build_event idx (map (fun _ => 0) (other_bytes blk)).

(** Going from [w] to [w'] put exactly one record on the mailbox, with the
    timer index as its sender. *)
Definition one_timer_event_enqueued (w w' : world) : Prop :=
  exists e,
    q_list (ml_queue w') = (q_list (ml_queue w) ++ [e])%list
    /\ sender_peer e = ml_timer_index w.

(** The caller of [timerHandler] can tell from what the call hands back
    whether the allocation failed. *)
Definition failure_observable : Prop :=
  exists observe : res unit -> bool,
    forall w, observe (fst (timerHandler w)) = malloc_fails w.

(** The number of threads created between [w] and [w'] that run [f]. *)
Definition spawned (f : thread_start) (w w' : world) : nat :=
  length (filter (fun g => g = f) (drop (length (threads w)) (threads w'))).

(** The line written when SIGTERM or SIGINT is caught. *)
Definition caught_line (signum : Z) : log_entry :=
  Build_log VLL_WARN "%s, sig %d caught" [signum].

(** The line written for a signal the loop has no case for. *)
Definition ignoring_line (signum : Z) : log_entry :=
  Build_log VLL_INFO "Ignoring signal %d.\n" [signum].

(** Neither SIGTERM nor SIGINT is among [sigs]. *)
Definition no_term (sigs : list Z) : Prop :=
  Forall (fun x => x <> SIGTERM /\ x <> SIGINT) sigs.

(** A freshly started process: nothing queued, nothing logged, no thread
    created; the timer index is 7 and [h] is what malloc will return. *)
Definition fresh (h : list (option ML_event)) : world :=
  Build_world 0 7 mqueue_init [] h false [] false None [] None.

(** A block as malloc may return it: four bytes of whatever was there. *)
Definition junk : ML_event := Build_event 21845 [85; 85; 85; 85].

(** No memory for the event. *)
Definition w_oom : world := fresh [None].

(** Memory for one event. *)
Definition w_ok : world := fresh [Some junk].

End Lacpd.

(* ===================================================================== *)
(** ** Command line ([parse_options])                                     *)
(* ===================================================================== *)

Module Options.

Local Open Scope Z_scope.
Local Open Scope string_scope.

(** How a call of [parse_options] ends. *)
Inductive outcome :=
| Parsed (db : string) (unixctl_path : option string)
    (* returns [db]; [unixctl_path] is what [*unixctl_pathp] holds *)
| Exited (status : Z)          (* exit(status) *)
| Aborted                      (* abort() *)
| Fatal (msg : string).        (* VLOG_FATAL(msg) *)

(** One answer of getopt_long other than -1: the code [c] and [optarg]. *)
Record getopt_ret := Build_getopt {
  c      : Z;
  optarg : string
}.

Definition opt_h : Z := 104.              (* 'h' *)
Definition opt_unknown : Z := 63.         (* '?' *)
Definition UCHAR_MAX : Z := 255.
Definition OPT_UNIXCTL : Z := UCHAR_MAX + 1.

Definition EXIT_SUCCESS : Z := 0.
Definition EXIT_FAILURE : Z := 1.

Section ParseOptions.
(** The codes that VLOG_OPTION_HANDLERS and DAEMON_OPTION_HANDLERS take
    care of (each handler ends in [break]); these macros come from headers
    outside the sources at hand. *)
Variable lib_option : Z -> bool.
(** What ovs_rundir() returns. *)
Variable ovs_rundir : string.

(** usage() prints the help text and calls exit(EXIT_SUCCESS). *)
Definition usage : outcome := Exited EXIT_SUCCESS.

(** The for (;;) loop, run on the answers [gs] that getopt_long gives
    before it answers -1.  [inl p]: the loop was left by [break] with
    [*unixctl_pathp = p]; [inr o]: the process ended inside the loop. *)
Fixpoint scan_options (gs : list getopt_ret) (unixctl_path : option string)
  : option string + outcome :=
  match gs with
  | [] => inl unixctl_path
  | g :: rest =>
      if Z.eqb (c g) opt_h then inr usage
      else if Z.eqb (c g) OPT_UNIXCTL then scan_options rest (Some (optarg g))
      else if lib_option (c g) then scan_options rest unixctl_path
      else if Z.eqb (c g) opt_unknown then inr (Exited EXIT_FAILURE)
      else inr Aborted
  end.

(** The switch on the number of arguments left once [optind] of them
    have been consumed.  [args] is the argument vector as getopt_long has
    left it when it answers -1: getopt_long reorders the vector in place,
    moving the arguments that are not options behind the options, so that
    they are the entries from [optind] on; the length of the vector, argc,
    and its first entry are those of the call. *)
Definition database_argument (args : list string) (optind : nat)
    (unixctl_path : option string) : outcome :=
  let argc := (Z.of_nat (length args) - Z.of_nat optind)%Z in
  let argv := drop optind args in
  if Z.eqb argc 0 then
    Parsed ("unix:" ++ ovs_rundir ++ "/db.sock") unixctl_path
  else if Z.eqb argc 1 then
    match argv with
    | a :: _ => Parsed a unixctl_path
    | [] => Aborted                 (* not reached: one argument is left *)
    end
  else
    Fatal "at most one non-option argument accepted; use --help for usage".

(** [parse_options argc argv unixctl_pathp].  What getopt_long does with the
    argv of the call is given by three things: [gs], its answers up to the
    final -1; [optind], the index it ends on; and [args], the vector as it
    has left it by then, reordered so that the arguments that are not
    options are the entries from [optind] on (see [database_argument]).
    [unixctl_path] is [*unixctl_pathp] on entry. *)
Definition parse_options (args : list string) (gs : list getopt_ret)
    (optind : nat) (unixctl_path : option string) : outcome :=
  match scan_options gs unixctl_path with
  | inl p => database_argument args optind p
  | inr o => o
  end.

End ParseOptions.

(** The message of the VLOG_FATAL call. *)
Definition too_many : string :=
  "at most one non-option argument accepted; use --help for usage".

(** The command line [lacpd --help] as getopt_long reads it: one answer,
    'h', and [optind] past both words. *)
Definition help_argv : list string := ["lacpd"; "--help"].
Definition help_answers : list getopt_ret := [Build_getopt opt_h EmptyString].

(** The command line [lacpd unix:/tmp/db --unixctl=/tmp/ctl] as typed, the
    database before the option. *)
Definition db_call : list string :=
  ["lacpd"; "unix:/tmp/db"; "--unixctl=/tmp/ctl"].

(** That command line as getopt_long leaves it, the option moved in front
    of the database, with [optind] 2; [lacpd --unixctl=/tmp/ctl
    unix:/tmp/db] is left the same. *)
Definition db_argv : list string :=
  ["lacpd"; "--unixctl=/tmp/ctl"; "unix:/tmp/db"].
Definition db_answers : list getopt_ret := [Build_getopt OPT_UNIXCTL "/tmp/ctl"].

End Options.

(* ===================================================================== *)
(** ** The OVSDB interface thread and [main] as a whole                   *)
(* ===================================================================== *)

Module Daemon.
Import Lacpd.

Local Open Scope Z_scope.
Local Open Scope string_scope.

(** Calls into code outside lacpd.c that leave no mark on [world]; they are
    kept in the order they are made. *)
Inductive call :=
| set_program_name (name : option string)
| proctitle_init
| fatal_ignore_sigpipe
| ovsrec_init
| daemonize_start
| unixctl_server_create (path : option string)
| free_ovsdb_sock
| daemonize_complete
| vlog_enable_async
| lacpd_run
| unixctl_server_run
| lacpd_wait
| unixctl_server_wait
| poll_immediate_wake
| poll_block
| lacpd_ovsdb_if_exit
| unixctl_server_destroy
| unixctl_command_reply (conn : nat) (body : option string).

(** The process as [main] and the OVSDB interface thread see it: the state
    of [Lacpd], the static flag [exiting] of lacpd.c, and the outside calls
    made so far. *)
Record daemon := Build_daemon {
  proc    : world;
  exiting : bool;
  calls   : list call
}.

Definition do_call (c : call) (d : daemon) : daemon :=
  Build_daemon (proc d) (exiting d) (calls d ++ [c]).

Definition with_proc (w : world) (d : daemon) : daemon :=
  Build_daemon w (exiting d) (calls d).

Definition on_proc (f : world -> world) (d : daemon) : daemon :=
  with_proc (f (proc d)) d.

Definition set_exiting (b : bool) (d : daemon) : daemon :=
  Build_daemon (proc d) b (calls d).

(** [halon_lacpd_exit conn argc argv exiting_], registered by [main] with
    [&exiting]: the flag is set and the connection gets a reply with a NULL
    body. *)
Definition halon_lacpd_exit (conn : nat) (d : daemon) : daemon :=
  do_call (unixctl_command_reply conn None) (set_exiting true d).

(** The line written by [lacpd_exit]. *)
Definition exiting_line : log_entry :=
  Build_log VLL_INFO "lacpd OVSDB thread exiting..." [].

Definition lacpd_exit (d : daemon) : daemon :=
  on_proc (fun w => snd (VLOG_INFO "lacpd OVSDB thread exiting..." [] w))
    (do_call lacpd_ovsdb_if_exit d).

(** One turn of the loop of [lacpd_ovs_main_thread]; [exits] lists the
    connections whose exit command unixctl_server_run hands to
    [halon_lacpd_exit] during this turn. *)
Definition ovs_iteration (exits : list nat) (d : daemon) : daemon :=
  let d := do_call lacpd_run d in
  let d := do_call unixctl_server_run d in
  let d := fold_left (fun d conn => halon_lacpd_exit conn d) exits d in
  let d := do_call lacpd_wait d in
  let d := do_call unixctl_server_wait d in
  if exiting d then do_call poll_immediate_wake d else do_call poll_block d.

(** How the thread stands once the turns given to it are used up. *)
Inductive thread_end :=
| ThreadReturned     (* the loop was left and the clean-up done *)
| ThreadRunning.     (* still inside the loop *)

(** while (!exiting) { ... } run for the turns [iters], one entry for each
    turn that runs to its end. *)
Fixpoint ovs_while (iters : list (list nat)) (d : daemon) : thread_end * daemon :=
  if exiting d then (ThreadReturned, d)
  else match iters with
       | [] => (ThreadRunning, d)
       | exits :: rest => ovs_while rest (ovs_iteration exits d)
       end.

Definition lacpd_ovs_main_thread (iters : list (list nat)) (d : daemon)
  : thread_end * daemon :=
  let d := set_exiting false d in
  match ovs_while iters d with
  | (ThreadReturned, d) =>
      (ThreadReturned, do_call unixctl_server_destroy (lacpd_exit d))
  | (ThreadRunning, d) => (ThreadRunning, d)
  end.

(** The calls of a turn during which no exit command arrives. *)
Definition quiet_turn : list call :=
  [lacpd_run; unixctl_server_run; lacpd_wait; unixctl_server_wait; poll_block].

(** The calls made from the start of the turn during which the exit
    commands of the connections [exits] arrive, to the end of the thread. *)
Definition last_turn (exits : list nat) : list call :=
  [lacpd_run; unixctl_server_run]
  ++ map (fun conn => unixctl_command_reply conn None) exits
  ++ [lacpd_wait; unixctl_server_wait; poll_immediate_wake;
      lacpd_ovsdb_if_exit; unixctl_server_destroy].

(** *** [main] *)

(** What the environment answers during a run of [main]. *)
Record main_env := Build_env {
  env_argv     : list string;               (* argv as getopt_long leaves it *)
  env_answers  : list Options.getopt_ret;   (* getopt_long, up to its -1 *)
  env_optind   : nat;                       (* optind after that *)
  rc_unixctl   : Z;                         (* unixctl_server_create *)
  rc_pthread   : Z;                         (* pthread_create *)
  rc_setitimer : Z;                         (* setitimer *)
  env_sigs     : list Z                     (* sigwait, call after call *)
}.

(** How a run of [main] ends. *)
Inductive main_end :=
| MainReturned (status : Z)     (* return status *)
| MainExited (status : Z)       (* exit(status) somewhere below main *)
| MainAborted                   (* abort() *)
| MainFatal (msg : string)      (* VLOG_FATAL(msg) *)
| MainWaiting.                  (* inside sigwait *)

(** The line VLOG_FATAL writes before it ends the process. *)
Definition fatal_line (msg : string) : log_entry :=
  Build_log VLL_EMER msg [].

(** The line written once the daemon has started. *)
Definition started_line : log_entry :=
  Build_log VLL_INFO "%s (Halon Link Aggregation Daemon) started" [].

Section Main.
(** As in [Options]. *)
Variable lib_option : Z -> bool.
Variable ovs_rundir : string.
(** mlacp_init(TRUE), defined outside the sources at hand: whatever it does
    to the state. *)
Variable mlacp_init : world -> world.

Definition main (e : main_env) (d : daemon) : main_end * daemon :=
  let d := do_call (set_program_name (head (env_argv e))) d in
  let d := do_call proctitle_init d in
  let d := do_call fatal_ignore_sigpipe d in
  match Options.parse_options lib_option ovs_rundir
          (env_argv e) (env_answers e) (env_optind e) None with
  | Options.Exited st => (MainExited st, d)
  | Options.Aborted => (MainAborted, d)
  | Options.Fatal msg =>
      (MainFatal msg, on_proc (fun w => with_vlog (vlog w ++ [fatal_line msg]) w) d)
  | Options.Parsed ovsdb_sock appctl_path =>
      let d := do_call ovsrec_init d in
      let d := do_call daemonize_start d in
      let d := do_call (unixctl_server_create appctl_path) d in
      if negb (Z.eqb (rc_unixctl e) 0) then (MainExited Options.EXIT_FAILURE, d)
      else
        let d := on_proc (fun w => with_commands (commands w ++ ["exit"]) w) d in
        let d := on_proc mlacp_init d in
        match lacpd_init ovsdb_sock (rc_pthread e) (proc d) with
        | (Exit st, w) => (MainExited st, with_proc w d)
        | (Ret _, w) =>
            let d := with_proc w d in
            let d := do_call free_ovsdb_sock d in
            let d := do_call daemonize_complete d in
            let d := do_call vlog_enable_async d in
            let d := on_proc (fun w => snd (VLOG_INFO
                       "%s (Halon Link Aggregation Daemon) started" [] w)) d in
            match main_tail (rc_setitimer e) (env_sigs e) (proc d) with
            | (Ret (Some st), w) => (MainReturned st, with_proc w d)
            | (Ret None, w) => (MainWaiting, with_proc w d)
            | (Exit st, w) => (MainExited st, with_proc w d)
            end
        end
  end.

End Main.

(** [main] got as far as its signal loop. *)
Definition reached_loop (e : main_end) : bool :=
  match e with
  | MainReturned _ | MainWaiting => true
  | _ => false
  end.

(** *** Vocabulary of the statements *)

(** SIGTERM or SIGINT. *)
Definition is_term (signum : Z) : Prop := signum = SIGTERM \/ signum = SIGINT.

(** The fields of [world] that the signal loop has no business with. *)
Definition same_setup (w w' : world) : Prop :=
  ml_timer_index w' = ml_timer_index w
  /\ sig_blocked w' = sig_blocked w
  /\ threads w' = threads w
  /\ event_rcvr w' = event_rcvr w
  /\ ovsdb_if w' = ovsdb_if w
  /\ commands w' = commands w
  /\ itimer w' = itimer w.

(** A record as [timerHandler] builds it for the timer index [idx]. *)
Definition clean_timer_event (idx : Z) (e : ML_event) : Prop :=
  sender_peer e = idx /\ Forall (fun b => b = 0) (other_bytes e).

(** The signals of [sigs] other than SIGALRM. *)
Definition not_alarm (sigs : list Z) : list Z :=
  filter (fun x => x <> SIGALRM) sigs.

(** The number of SIGALRM among [sigs]. *)
Definition alarms (sigs : list Z) : nat :=
  length (filter (fun x => x = SIGALRM) sigs).

(** The line a signal other than SIGTERM and SIGINT leaves in the log when
    malloc has nothing to give. *)
Definition dropped_line (signum : Z) : log_entry :=
  if Z.eqb signum SIGALRM then oom_line else ignoring_line signum.

(** An answer of getopt_long that lets the option loop go on. *)
Definition accepted (lib_option : Z -> bool) (g : Options.getopt_ret) : Prop :=
  Options.c g <> Options.opt_h
  /\ (Options.c g = Options.OPT_UNIXCTL \/ lib_option (Options.c g) = true).




(** The same command line when the control socket cannot be created. *)
Definition no_socket_run : main_env :=
  Build_env Options.db_argv Options.db_answers 2 98 0 0 [SIGALRM; 1; SIGTERM].

(** The command line [lacpd a b]: no option, two arguments. *)
Definition two_args_run : main_env :=
  Build_env ["lacpd"; "a"; "b"] [] 1 0 0 0 [SIGALRM; 1; SIGTERM].

(** The daemon before [main] has done anything. *)
Definition cold (h : list (option ML_event)) : daemon :=
  Build_daemon (fresh h) false [].

End Daemon.

(* ===================================================================== *)
(** ** The mailbox queue: invariant, order of delivery, semaphore count   *)
(* ===================================================================== *)

Module MqueueFacts.
Import Mqueue.

Section Facts.
Context {A : Type}.
Implicit Types (s : system A) (q : mqueue_t A).

(** An uncontended call of [mqueue_send] is its four steps in a row. *)
Lemma mqueue_send_steps t d q :
  q_mutex q = None ->
  exists q1 q2 q3,
    send_step t d SendIdle q = Some (SendLocked d, q1)
    /\ send_step t d (SendLocked d) q1 = Some (SendLinked d, q2)
    /\ send_step t d (SendLinked d) q2 = Some (SendPosted d, q3)
    /\ send_step t d (SendPosted d) q3 = Some (SendIdle, mqueue_send d q).
Proof.
  destruct q as [ql qm qa]; cbn. intros ->.
  do 3 eexists. repeat split.
Qed.

(** A call of [mqueue_wait] that finds the semaphore positive, the mutex
    free and a record at the head is its four steps in a row. *)
Lemma mqueue_wait_steps q d q' :
  q_mutex q = None ->
  mqueue_wait q = Some (d, q') ->
  exists q1 q2 q3,
    wait_step WaitIdle q = Some (WaitTaken, q1, None)
    /\ wait_step WaitTaken q1 = Some (WaitLocked, q2, None)
    /\ wait_step WaitLocked q2 = Some (WaitUnlinked d, q3, None)
    /\ wait_step (WaitUnlinked d) q3 = Some (WaitIdle, q', Some d).
Proof.
  destruct q as [ql qm qa]; cbn. intros ->. unfold mqueue_wait; cbn.
  destruct qa as [|n]; [done|]. destruct ql as [|x l]; [done|].
  intros [= <- <-]. do 3 eexists. repeat split.
Qed.

Lemma inv_boot n : inv (boot (A:=A) n).
Proof.
  split; cbn; try done.
  - intros [t|]; cbn; [|done].
    destruct (replicate n SendIdle !! t) eqn:E; [|done].
    apply lookup_replicate in E as [-> _]. done.
Qed.

Lemma holder_free s o : inv s -> q_mutex (mq s) = None -> in_critical s o = false.
Proof.
  intros I E. destruct (in_critical s o) eqn:C; [|done].
  apply I in C. congruence.
Qed.

Ltac open_inv I :=
  pose proof (inv_mutex _ I) as Hm; pose proof (inv_count _ I) as Hc;
  pose proof (inv_hist _ I) as Hh; pose proof (inv_tail _ I) as Ht;
  unfold posts_pending, pops_pending, holder_pc in *; cbn in *.

Ltac at_slot Hlt Ept :=
  rewrite ?(list_lookup_insert_eq _ _ _ Hlt); rewrite ?Ept in *; cbn in *;
  rewrite ?app_nil_r in *.

Lemma inv_send_step t d s s' :
  inv s -> step (SendStep t d) s = Some s' -> inv s'.
Proof.
  intros I Hs. cbn in Hs.
  destruct (senders s !! t) as [pc|] eqn:Ept; [|done].
  pose proof (lookup_lt_Some _ _ _ Ept) as Hlt.
  destruct s as [[ql qm qa] snd rcv st rc]; cbn in *.
  assert (send_inside pc = true -> qm = Some (Producer t)) as Hhold.
  { intros Hin. apply (inv_mutex _ I (Producer t)). cbn. by rewrite Ept. }
  assert (forall o, qm = None -> in_critical (Build_system (Build_mqueue ql qm qa) snd rcv st rc) o = false) as Hfree.
  { intros o ->. by apply holder_free. }
  destruct pc as [|d'|d'|d']; cbn in Hs.
  - unfold mutex_lock in Hs; cbn in Hs. destruct qm as [o|]; [done|].
    injection Hs as <-. open_inv I.
    split; unfold posts_pending, pops_pending, holder_pc; cbn; at_slot Hlt Ept; try done; try lia.
    intros [t'|]; cbn.
    + destruct (decide (t = t')) as [->|Hne].
      * by at_slot Hlt Ept.
      * rewrite list_lookup_insert_ne by done.
        specialize (Hfree (Producer t') eq_refl). cbn in Hfree. rewrite Hfree.
        split; [done|]. intros Heq. injection Heq as Heq. done.
    + specialize (Hfree Consumer eq_refl). cbn in Hfree. by rewrite Hfree.
  - injection Hs as <-. rewrite (Hhold eq_refl) in *. open_inv I. at_slot Hlt Ept.
    split; unfold posts_pending, pops_pending, holder_pc; cbn; at_slot Hlt Ept.
    + intros [t'|]; cbn; [|apply (Hm Consumer)].
      destruct (decide (t = t')) as [->|Hne]; [by at_slot Hlt Ept|].
      rewrite list_lookup_insert_ne by done. apply (Hm (Producer t')).
    + rewrite length_app. cbn. lia.
    + rewrite Hh. by rewrite <- !app_assoc.
    + intros d0 [= ->]. eauto.
  - injection Hs as <-. rewrite (Hhold eq_refl) in *. open_inv I. at_slot Hlt Ept.
    split; unfold posts_pending, pops_pending, holder_pc; cbn; at_slot Hlt Ept; try done; try lia.
    + intros [t'|]; cbn; [|apply (Hm Consumer)].
      destruct (decide (t = t')) as [->|Hne]; [by at_slot Hlt Ept|].
      rewrite list_lookup_insert_ne by done. apply (Hm (Producer t')).
  - injection Hs as <-. rewrite (Hhold eq_refl) in *. open_inv I. at_slot Hlt Ept.
    split; unfold posts_pending, pops_pending, holder_pc; cbn; at_slot Hlt Ept; try done; try lia.
    + intros o. split; [|done]. intros Hin. exfalso.
      destruct o as [t'|]; cbn in Hin.
      * destruct (decide (t = t')) as [->|Hne].
        -- by rewrite (list_lookup_insert_eq _ _ _ Hlt) in Hin.
        -- rewrite list_lookup_insert_ne in Hin by done.
           apply (Hm (Producer t')) in Hin. congruence.
      * apply (Hm Consumer) in Hin. congruence.
Qed.

Lemma inv_wait_step s s' :
  inv s -> step WaitStep s = Some s' -> inv s'.
Proof.
  intros I Hs. cbn in Hs.
  destruct s as [[ql qm qa] snd rcv st rc]; cbn in *.
  assert (wait_inside rcv = true -> qm = Some Consumer) as Hhold.
  { intros Hin. by apply (inv_mutex _ I Consumer). }
  assert (forall o, qm = None -> in_critical (Build_system (Build_mqueue ql qm qa) snd rcv st rc) o = false) as Hfree.
  { intros o ->. by apply holder_free. }
  destruct rcv as [| | |d]; cbn in Hs.
  - unfold sem_wait in Hs; cbn in Hs. destruct qa as [|qa]; [done|].
    injection Hs as <-. open_inv I.
    split; unfold posts_pending, pops_pending, holder_pc; cbn; rewrite ?app_nil_r in *; try done; try lia.
  - unfold mutex_lock in Hs; cbn in Hs. destruct qm as [o|]; [done|].
    injection Hs as <-. open_inv I.
    split; unfold posts_pending, pops_pending, holder_pc; cbn; rewrite ?app_nil_r in *; try done; try lia.
    intros [t'|]; cbn; [|done].
    specialize (Hfree (Producer t') eq_refl). cbn in Hfree. by rewrite Hfree.
  - rewrite (Hhold eq_refl) in *.
    unfold remove_head in Hs; cbn in Hs. destruct ql as [|d l]; [done|].
    injection Hs as <-. open_inv I.
    split; unfold posts_pending, pops_pending, holder_pc; cbn; rewrite ?app_nil_r in *; try done; try lia.
  - rewrite (Hhold eq_refl) in *.
    injection Hs as <-. open_inv I.
    split; unfold posts_pending, pops_pending, holder_pc; cbn; rewrite ?app_nil_r in *; try done; try lia.
    + intros o. split; [|done]. intros Hin. exfalso.
      destruct o as [t'|]; cbn in Hin; [|done].
      apply (Hm (Producer t')) in Hin. congruence.
    + by rewrite <- app_assoc.
Qed.

Lemma inv_step a s s' : inv s -> step a s = Some s' -> inv s'.
Proof. destruct a; [apply inv_send_step | apply inv_wait_step]. Qed.

Lemma inv_exec a s : inv s -> inv (exec s a).
Proof.
  intros I. unfold exec. destruct (step a s) eqn:E; [|done].
  by eapply inv_step.
Qed.

Lemma inv_run acts : forall s, inv s -> inv (run acts s).
Proof.
  induction acts as [|a acts IH]; intros s I; [done|].
  cbn. apply IH. by apply inv_exec.
Qed.


Lemma quiescent_holder s : quiescent s -> holder_pc s = SendIdle.
Proof.
  intros [Hs _]. unfold holder_pc.
  destruct (q_mutex (mq s)) as [[t|]|]; try done.
  destruct (senders s !! t) as [pc|] eqn:E; [|done]. cbn.
  by apply (Forall_lookup_1 _ _ _ _ Hs E).
Qed.

Lemma inv_quiescent_count s :
  inv s -> quiescent s -> q_avail (mq s) = length (q_list (mq s)).
Proof.
  intros I Q. pose proof (inv_count _ I) as Hc.
  unfold posts_pending, pops_pending in Hc.
  rewrite (quiescent_holder _ Q) in Hc. destruct Q as [_ Hr].
  rewrite Hr in Hc. lia.
Qed.

Lemma inv_quiescent_hist s :
  inv s -> quiescent s -> sent s = received s ++ q_list (mq s).
Proof.
  intros I Q. pose proof (inv_hist _ I) as Hh.
  rewrite (quiescent_holder _ Q) in Hh. destruct Q as [_ Hr].
  rewrite Hr in Hh. cbn in Hh. by rewrite app_nil_r in Hh.
Qed.

Lemma inv_exclusion s o1 o2 :
  inv s -> in_critical s o1 = true -> in_critical s o2 = true -> o1 = o2.
Proof.
  intros I H1 H2. apply (inv_mutex _ I) in H1, H2. congruence.
Qed.

Lemma inv_prefix s : inv s -> exists rest, sent s = received s ++ rest.
Proof.
  intros I. pose proof (inv_hist _ I) as Hh.
  destruct (linked (holder_pc s)) as [|d [|]] eqn:El.
  - rewrite app_nil_r in Hh. eauto.
  - destruct (inv_tail _ I d El) as [l Hl].
    assert (unlinked (receiver s) = []) as Hu.
    { destruct (receiver s) as [| | |x] eqn:Er; try done.
      assert (in_critical s Consumer = true) as Hc by (cbn; by rewrite Er).
      apply (inv_mutex _ I) in Hc. unfold holder_pc in El. by rewrite Hc in El. }
    rewrite Hu, Hl in Hh. cbn in Hh. rewrite app_assoc in Hh.
    apply app_inj_tail in Hh as [Hh _]. eauto.
  - exfalso. by destruct (holder_pc s).
Qed.

(** A step that changes the list is taken by the thread that holds the
    mutex, which still holds it afterwards. *)
Lemma list_changed_under_mutex a s s' :
  inv s -> step a s = Some s' ->
  q_list (mq s') <> q_list (mq s) ->
  q_mutex (mq s) = Some (actor a) /\ q_mutex (mq s') = Some (actor a).
Proof.
  intros I Hs Hne. destruct a as [t d|]; cbn in Hs.
  - destruct (senders s !! t) as [pc|] eqn:Ept; [|done].
    assert (send_inside pc = true -> q_mutex (mq s) = Some (Producer t)) as Hh.
    { intros Hin. apply (inv_mutex _ I (Producer t)). cbn. by rewrite Ept. }
    destruct pc as [|d'|d'|d']; cbn in Hs.
    + unfold mutex_lock in Hs. destruct (q_mutex (mq s)); [done|].
      injection Hs as <-. done.
    + injection Hs as <-. cbn. by rewrite (Hh eq_refl).
    + injection Hs as <-. done.
    + injection Hs as <-. done.
  - assert (wait_inside (receiver s) = true -> q_mutex (mq s) = Some Consumer) as Hh.
    { intros Hin. by apply (inv_mutex _ I Consumer). }
    destruct (receiver s) as [| | |d]; cbn in Hs.
    + unfold sem_wait in Hs. destruct (q_avail (mq s)); [done|].
      injection Hs as <-. done.
    + unfold mutex_lock in Hs. destruct (q_mutex (mq s)); [done|].
      injection Hs as <-. done.
    + unfold remove_head in Hs. destruct (q_list (mq s)); [done|].
      injection Hs as <-. cbn. by rewrite (Hh eq_refl).
    + injection Hs as <-. done.
Qed.

(** With the mutex in hand the consumer finds a record to unlink. *)
Lemma inv_head_present s :
  inv s -> receiver s = WaitLocked -> q_list (mq s) <> [].
Proof.
  intros I Hr E. pose proof (inv_count _ I) as Hc.
  unfold pops_pending in Hc. rewrite Hr, E in Hc. cbn in Hc. lia.
Qed.

(** *** One caller at a time *)

Lemma mqueue_send_count d q :
  q_avail q = length (q_list q) ->
  q_avail (mqueue_send d q) = length (q_list (mqueue_send d q)).
Proof. cbn. rewrite length_app. cbn. lia. Qed.

Lemma mqueue_wait_count q d q' :
  q_avail q = length (q_list q) ->
  mqueue_wait q = Some (d, q') ->
  q_avail q' = length (q_list q') /\ q_list q = d :: q_list q'.
Proof.
  unfold mqueue_wait. destruct q as [ql qm qa]; cbn.
  destruct qa as [|n]; [done|]. destruct ql as [|x l]; [done|].
  intros Hc [= <- <-]. cbn in *. split; [lia | done].
Qed.

Lemma mqueue_send_all_list ds : forall q,
  q_list (mqueue_send_all ds q) = q_list q ++ ds
  /\ q_avail (mqueue_send_all ds q) = q_avail q + length ds
  /\ q_mutex (mqueue_send_all ds q) = q_mutex q.
Proof.
  induction ds as [|d ds IH]; intros q.
  - cbn. rewrite app_nil_r. repeat split; lia.
  - change (mqueue_send_all (d :: ds) q)
      with (mqueue_send_all ds (mqueue_send d q)).
    destruct (IH (mqueue_send d q)) as (-> & -> & ->). cbn.
    rewrite <- app_assoc. repeat split; lia.
Qed.

Lemma mqueue_drain_all q :
  q_avail q = length (q_list q) ->
  mqueue_drain (q_avail q) q = (q_list q, Build_mqueue [] (q_mutex q) 0).
Proof.
  destruct q as [ql qm qa]; cbn. intros ->.
  induction ql as [|x l IH]; cbn; [done|].
  unfold mqueue_wait; cbn. by rewrite IH.
Qed.

(** Records sent in a row to a fresh queue come back in the same order. *)
Lemma mqueue_send_all_drain (ds : list A) :
  fst (mqueue_drain (length ds) (mqueue_send_all ds mqueue_init)) = ds.
Proof.
  destruct (mqueue_send_all_list ds mqueue_init) as (Hl & Ha & Hm).
  cbn in Hl, Ha.
  rewrite <- Ha. rewrite mqueue_drain_all by (rewrite Hl, Ha; done).
  by rewrite Hl.
Qed.

(** C3: whatever the interleaving of [n] producers and the consumer, the
    records handed out by the calls of [mqueue_wait] that have returned
    are, in order, the first of the records whose [mqueue_send] has
    returned; and when no call is in progress the records not handed out
    yet are exactly the content of the list, in the same order.  Nothing
    is reordered and nothing is lost.  In particular records sent one
    after the other to a fresh queue are handed back in that order. *)
Theorem mqueue_fifo (n : nat) (acts : list (action A)) :
  let s := run acts (boot n) in
  (exists rest, sent s = received s ++ rest)
  /\ (quiescent s -> sent s = received s ++ q_list (mq s))
  /\ (forall ds : list A,
        fst (mqueue_drain (length ds) (mqueue_send_all ds mqueue_init)) = ds).
Proof.
  intros s. assert (inv s) as I by apply inv_run, inv_boot.
  split; [by apply inv_prefix|].
  split; [by apply inv_quiescent_hist | apply mqueue_send_all_drain].
Qed.

(** C4: whatever the interleaving, when no enqueue and no dequeue is in
    progress the count of the semaphore is the length of the list; at most
    one thread is between its lock and its unlock, and it is the holder of
    the mutex; a step that changes the list is taken by the holder of the
    mutex; and a whole call of [mqueue_send] or of [mqueue_wait] takes a
    queue whose count is the length of its list to another such queue. *)
Theorem mqueue_semaphore_counts_records (n : nat) (acts : list (action A)) :
  let s := run acts (boot n) in
  (quiescent s -> q_avail (mq s) = length (q_list (mq s)))
  /\ (forall o, in_critical s o = true <-> q_mutex (mq s) = Some o)
  /\ (forall o1 o2,
        in_critical s o1 = true -> in_critical s o2 = true -> o1 = o2)
  /\ (forall a s',
        step a s = Some s' -> q_list (mq s') <> q_list (mq s) ->
        q_mutex (mq s) = Some (actor a) /\ q_mutex (mq s') = Some (actor a))
  /\ (forall d q,
        q_avail q = length (q_list q) ->
        q_avail (mqueue_send d q) = length (q_list (mqueue_send d q)))
  /\ (forall (d : A) q q',
        q_avail q = length (q_list q) ->
        mqueue_wait q = Some (d, q') ->
        q_avail q' = length (q_list q')).
Proof.
  intros s. assert (inv s) as I by apply inv_run, inv_boot.
  split; [by apply inv_quiescent_count|].
  split; [apply (inv_mutex _ I)|].
  split; [intros o1 o2; by apply inv_exclusion|].
  split; [intros a s' Hs Hne; by eapply list_changed_under_mutex|].
  split; [intros d q; apply mqueue_send_count|].
  intros d q q' Hc Hw. by destruct (mqueue_wait_count q d q' Hc Hw).
Qed.

End Facts.

Lemma mqueue_fifo_witness :
  quiescent (run two_producers (boot 2))
  /\ sent (run two_producers (boot 2)) = [1; 2]
  /\ received (run two_producers (boot 2)) = [1]
  /\ sent (run two_producers (boot 2))
     = received (run two_producers (boot 2))
       ++ q_list (mq (run two_producers (boot 2))).
Proof.
  split; [split; [repeat constructor | reflexivity]|].
  split; [reflexivity|]. split; [reflexivity|].
  apply (proj1 (proj2 (mqueue_fifo 2 two_producers))).
  split; [repeat constructor | reflexivity].
Defined.

Lemma mqueue_semaphore_counts_records_witness :
  quiescent (run two_producers (boot 2))
  /\ length (q_list (mq (run two_producers (boot 2)))) = 1
  /\ q_avail (mq (run two_producers (boot 2)))
     = length (q_list (mq (run two_producers (boot 2)))).
Proof.
  split; [split; [repeat constructor | reflexivity]|].
  split; [reflexivity|].
  apply (proj1 (mqueue_semaphore_counts_records 2 two_producers)).
  split; [repeat constructor | reflexivity].
Defined.

End MqueueFacts.

(* ===================================================================== *)
(** ** The timer handler, the initialisation and the signal loop          *)
(* ===================================================================== *)

Module LacpdFacts.
Import Mqueue Lacpd.

Local Open Scope Z_scope.
Local Open Scope lacpd_scope.

(** *** [timerHandler] *)

Lemma timerHandler_oom w :
  malloc_fails w = true ->
  timerHandler w
  = (Ret tt, with_vlog (vlog w ++ [oom_line]) (with_heap (tail (heap w)) w)).
Proof.
  destruct w as [sd ti q lg hp sb th er ov cm it]; cbn.
  unfold malloc_fails, timerHandler, bind, malloc_event; cbn.
  destruct hp as [|[blk|] hp]; cbn; intros H; done.
Qed.

Lemma timerHandler_ok w blk h :
  heap w = Some blk :: h ->
  timerHandler w
  = (Ret tt,
     with_queue (mqueue_send (timer_event (ml_timer_index w) blk) (ml_queue w))
       (with_heap h w)).
Proof.
  destruct w as [sd ti q lg hp sb th er ov cm it]; cbn. intros ->.
  reflexivity.
Qed.

Lemma malloc_fails_false w :
  malloc_fails w = false -> exists blk h, heap w = Some blk :: h.
Proof.
  unfold malloc_fails. destruct (heap w) as [|[blk|] h]; try done. eauto.
Qed.

Lemma timerHandler_returns w : fst (timerHandler w) = Ret tt.
Proof.
  destruct (malloc_fails w) eqn:E.
  - by rewrite timerHandler_oom.
  - destruct (malloc_fails_false _ E) as (blk & h & Hh).
    by rewrite (timerHandler_ok _ _ _ Hh).
Qed.

Lemma timerHandler_shutdown w :
  lacpd_shutdown (snd (timerHandler w)) = lacpd_shutdown w.
Proof.
  destruct (malloc_fails w) eqn:E.
  - by rewrite timerHandler_oom.
  - destruct (malloc_fails_false _ E) as (blk & h & Hh).
    by rewrite (timerHandler_ok _ _ _ Hh).
Qed.

(** *** The switch of the loop *)

Lemma on_signal_alarm w : on_signal SIGALRM w = timerHandler w.
Proof. reflexivity. Qed.

Lemma on_signal_term signum w :
  signum = SIGTERM \/ signum = SIGINT ->
  on_signal signum w
  = (Ret tt, with_shutdown 1 (with_vlog (vlog w ++ [caught_line signum]) w)).
Proof. intros [-> | ->]; reflexivity. Qed.

Lemma on_signal_other signum w :
  signum <> SIGALRM -> signum <> SIGTERM -> signum <> SIGINT ->
  on_signal signum w
  = (Ret tt, with_vlog (vlog w ++ [ignoring_line signum]) w).
Proof.
  intros Ha Ht Hi. unfold on_signal.
  destruct (Z.eqb_spec signum SIGALRM); [done|].
  destruct (Z.eqb_spec signum SIGTERM); [done|].
  destruct (Z.eqb_spec signum SIGINT); [done|].
  reflexivity.
Qed.

(** A signal other than SIGTERM and SIGINT is handled, [on_signal] returns
    and the flag is as it was. *)
Lemma on_signal_keeps_running signum w :
  signum <> SIGTERM -> signum <> SIGINT ->
  fst (on_signal signum w) = Ret tt
  /\ lacpd_shutdown (snd (on_signal signum w)) = lacpd_shutdown w.
Proof.
  intros Ht Hi. destruct (Z.eq_dec signum SIGALRM) as [->|Ha].
  - rewrite on_signal_alarm. split.
    + apply timerHandler_returns.
    + apply timerHandler_shutdown.
  - rewrite on_signal_other by done. done.
Qed.

(** *** The loop *)

Lemma signal_loop_cons signum rest w :
  lacpd_shutdown w = 0 ->
  fst (on_signal signum w) = Ret tt ->
  signal_loop (signum :: rest) w = signal_loop rest (snd (on_signal signum w)).
Proof.
  intros Hsd Hret. cbn. rewrite Hsd. cbn. unfold bind.
  destruct (on_signal signum w) as [[[]|st] w']; cbn in *; done.
Qed.

Lemma signal_loop_stopped sigs w :
  lacpd_shutdown w <> 0 -> signal_loop sigs w = (Ret LoopExited, w).
Proof.
  intros Hsd. destruct sigs; cbn.
  all: destruct (Z.eqb_spec (lacpd_shutdown w) 0); done.
Qed.

Lemma signal_loop_app pre : forall w rest,
  lacpd_shutdown w = 0 -> no_term pre ->
  signal_loop (pre ++ rest) w = signal_loop rest (snd (signal_loop pre w))
  /\ fst (signal_loop pre w) = Ret LoopWaiting
  /\ lacpd_shutdown (snd (signal_loop pre w)) = 0.
Proof.
  induction pre as [|x pre IH]; intros w rest Hsd Hno.
  - cbn. by rewrite Hsd.
  - apply Forall_cons in Hno as [[Ht Hi] Hno].
    destruct (on_signal_keeps_running x w Ht Hi) as [Hret Hkeep].
    rewrite <- app_comm_cons. rewrite !signal_loop_cons by done.
    apply IH; [congruence | done].
Qed.

Lemma on_signal_returns signum w : fst (on_signal signum w) = Ret tt.
Proof.
  destruct (Z.eq_dec signum SIGTERM) as [->|Ht]; [done|].
  destruct (Z.eq_dec signum SIGINT) as [->|Hi]; [done|].
  by apply on_signal_keeps_running.
Qed.

(** From SIGTERM or SIGINT on, the signals handed to the loop are not
    looked at. *)
Lemma signal_loop_term pre : forall w signum post,
  signum = SIGTERM \/ signum = SIGINT ->
  exists w',
    signal_loop (pre ++ signum :: post) w = (Ret LoopExited, w')
    /\ signal_loop (pre ++ [signum]) w = (Ret LoopExited, w')
    /\ lacpd_shutdown w' <> 0.
Proof.
  induction pre as [|x pre IH]; intros w signum post Hsig.
  all: destruct (Z.eq_dec (lacpd_shutdown w) 0) as [Hsd|Hsd].
  all: try (exists w; by rewrite !signal_loop_stopped).
  - cbn [app]. rewrite !signal_loop_cons by (done || apply on_signal_returns).
    rewrite on_signal_term by done. cbn [snd].
    eexists. rewrite !signal_loop_stopped by done. done.
  - rewrite <- !app_comm_cons.
    rewrite !signal_loop_cons by (done || apply on_signal_returns).
    by apply IH.
Qed.

Lemma start_timer_returns rc w : exists w', start_timer rc w = (Ret tt, w').
Proof. unfold start_timer. destruct (rc =? 0); eauto. Qed.

(** *** [lacpd_init] *)

Lemma lacpd_init_ok db w :
  lacpd_init db 0 w
  = (Ret tt,
     with_threads (threads w ++ [lacpd_ovs_main_thread])
       (with_commands (commands w ++ ["lacpd/dump"%string])
          (with_ovsdb_if (Some db)
             (with_sig_blocked true (with_event_rcvr true w))))).
Proof. reflexivity. Qed.

Lemma lacpd_init_failed db rc w :
  rc <> 0 ->
  lacpd_init db rc w
  = (Exit (- rc),
     with_vlog
       (vlog w ++ [Build_log VLL_ERR
                     "pthread_create for OVSDB i/f thread failed! rc=%d" [rc]])
       (with_commands (commands w ++ ["lacpd/dump"%string])
          (with_ovsdb_if (Some db)
             (with_sig_blocked true (with_event_rcvr true w))))).
Proof.
  intros Hrc. unfold lacpd_init, bind; cbn.
  destruct (Z.eqb_spec rc 0); [done|]. reflexivity.
Qed.

(** *** Claims about the timer source *)

(** C1, as stated, fails when no memory is left: the firing is handled and
    the queue is as it was before. *)
Lemma timer_tick_no_memory_no_event :
  ~ one_timer_event_enqueued w_oom (snd (on_signal SIGALRM w_oom)).
Proof.
  intros (e & He & _). vm_compute in He. discriminate He.
Qed.

(** C1, amended: for every SIGALRM the running loop gets from sigwait while
    malloc has a block [blk] to give, [timerHandler] is called once; it
    returns after putting exactly one record at the tail of the mailbox,
    zero everywhere but in [sender.peer], which holds the timer index; the
    allocation apart nothing else changes, and the loop goes on with the
    next signal.  The timer armed by [main] has an interval of one second. *)
Theorem timer_tick_enqueues_one_event w blk h :
  heap w = Some blk :: h ->
  lacpd_shutdown w = 0 ->
  let e := timer_event (ml_timer_index w) blk in
  let w' := with_queue (mqueue_send e (ml_queue w)) (with_heap h w) in
  on_signal SIGALRM w = (Ret tt, w')
  /\ q_list (ml_queue w') = q_list (ml_queue w) ++ [e]
  /\ q_avail (ml_queue w') = S (q_avail (ml_queue w))
  /\ sender_peer e = ml_timer_index w
  /\ Forall (fun b => b = 0) (other_bytes e)
  /\ (forall rest, signal_loop (SIGALRM :: rest) w = signal_loop rest w')
  /\ itimer (snd (start_timer 0 w)) = Some (Build_itimerval 1 0 1 0).
Proof.
  intros Hh Hsd e w'.
  assert (on_signal SIGALRM w = (Ret tt, w')) as Hon.
  { rewrite on_signal_alarm. by apply timerHandler_ok. }
  split; [done|]. split; [done|]. split; [done|]. split; [done|].
  split.
  { subst e. cbn. induction (other_bytes blk); by constructor. }
  split; [|done].
  intros rest. rewrite signal_loop_cons; by rewrite ?Hon.
Qed.

Lemma timer_tick_enqueues_one_event_witness :
  on_signal SIGALRM w_ok
  = (Ret tt,
     with_queue (mqueue_send (Build_event 7 [0; 0; 0; 0]) (ml_queue w_ok))
       (with_heap [] w_ok))
  /\ q_list (ml_queue (snd (on_signal SIGALRM w_ok)))
     = [Build_event 7 [0; 0; 0; 0]].
Proof.
  split.
  - apply (proj1 (timer_tick_enqueues_one_event w_ok junk [] eq_refl eq_refl)).
  - reflexivity.
Defined.

(** C2, as stated, fails in its last part: [timerHandler] hands back the
    same thing whether malloc failed or not, so its caller cannot tell; and
    the log and the allocator apart, the state after the failed call is the
    state before it: nothing has counted the drop. *)
Lemma timer_failure_not_observable :
  malloc_fails w_oom = true
  /\ malloc_fails w_ok = false
  /\ fst (timerHandler w_oom) = fst (timerHandler w_ok)
  /\ with_vlog (vlog w_oom) (with_heap (heap w_oom) (snd (timerHandler w_oom)))
     = w_oom
  /\ ~ failure_observable.
Proof.
  split; [reflexivity|]. split; [reflexivity|]. split; [reflexivity|].
  split; [reflexivity|].
  intros [observe Hob].
  pose proof (Hob w_oom) as H1. pose proof (Hob w_ok) as H2.
  rewrite timerHandler_returns in H1, H2.
  change (malloc_fails w_oom) with true in H1.
  change (malloc_fails w_ok) with false in H2. congruence.
Qed.

(** C2, amended: when malloc returns NULL, [timerHandler] writes one error
    line and returns; the mailbox and the shutdown flag are as before (the
    record is not added and no record already queued is touched), and the
    loop goes on with the next signal.  The only traces of the failure are
    the log line and the consumed allocation. *)
Theorem timer_failure_logged_and_dropped w :
  malloc_fails w = true ->
  let w' := with_vlog (vlog w ++ [oom_line]) (with_heap (tail (heap w)) w) in
  timerHandler w = (Ret tt, w')
  /\ ml_queue w' = ml_queue w
  /\ lacpd_shutdown w' = lacpd_shutdown w
  /\ (lacpd_shutdown w = 0 ->
      forall rest, signal_loop (SIGALRM :: rest) w = signal_loop rest w').
Proof.
  intros Hf w'. pose proof (timerHandler_oom w Hf) as Ht.
  split; [done|]. split; [done|]. split; [done|].
  intros Hsd rest. rewrite signal_loop_cons; try done.
  - by rewrite on_signal_alarm, Ht.
  - by rewrite on_signal_alarm, Ht.
Qed.

Lemma timer_failure_logged_and_dropped_witness :
  timerHandler w_oom
  = (Ret tt, with_vlog [oom_line] (with_heap [] w_oom))
  /\ q_list (ml_queue (snd (timerHandler w_oom))) = [].
Proof.
  split.
  - apply (proj1 (timer_failure_logged_and_dropped w_oom eq_refl)).
  - reflexivity.
Defined.

(** *** Claims about the initialisation *)

(** C5, as stated, fails: [lacpd_init] creates no thread that runs the
    protocol loop. *)
Lemma init_spawns_no_protocol_thread :
  spawned lacpd_protocol_thread (fresh [])
    (snd (lacpd_init "unix:/var/run/openvswitch/db.sock" 0 (fresh []))) <> 1%nat.
Proof. vm_compute. discriminate. Qed.

(** C5, amended: when pthread_create succeeds [lacpd_init] returns having
    created exactly one thread, which runs [lacpd_ovs_main_thread], the
    OVSDB interface loop, and none that runs the protocol loop; when
    pthread_create fails with [rc] the process exits with status [-rc]
    and no thread has been created. *)
Theorem init_spawns_ovsdb_thread_only db rc w :
  (rc = 0 ->
     fst (lacpd_init db rc w) = Ret tt
     /\ threads (snd (lacpd_init db rc w)) = threads w ++ [lacpd_ovs_main_thread]
     /\ spawned lacpd_ovs_main_thread w (snd (lacpd_init db rc w)) = 1%nat
     /\ spawned lacpd_protocol_thread w (snd (lacpd_init db rc w)) = 0%nat)
  /\ (rc <> 0 ->
     fst (lacpd_init db rc w) = Exit (- rc)
     /\ threads (snd (lacpd_init db rc w)) = threads w).
Proof.
  split.
  - intros ->. rewrite lacpd_init_ok. cbn.
    split; [done|]. split; [done|].
    unfold spawned; cbn. rewrite drop_app_length. done.
  - intros Hrc. by rewrite lacpd_init_failed.
Qed.

Lemma init_spawns_ovsdb_thread_only_witness :
  threads (snd (lacpd_init "db.sock" 0 (fresh []))) = [lacpd_ovs_main_thread]
  /\ fst (lacpd_init "db.sock" 11 (fresh [])) = Exit (-11).
Proof.
  split.
  - apply (proj1 (init_spawns_ovsdb_thread_only "db.sock" 0 (fresh []))).
    reflexivity.
  - apply (proj2 (init_spawns_ovsdb_thread_only "db.sock" 11 (fresh []))).
    discriminate.
Defined.

(** *** Claims about the signal loop *)

(** C7: once SIGTERM or SIGINT is among the signals handed to the loop, the
    loop is left with the shutdown flag set and [main] returns 0; the
    signals after it, SIGALRM included, are never handled, so the state,
    and with it the mailbox, is the same as if nothing had followed.  When
    the signal reaches the running loop (the flag is clear and no such
    signal came before), it is logged and the flag set to 1, and nothing
    else changes. *)
Theorem term_signal_stops_loop pre signum post w :
  signum = SIGTERM \/ signum = SIGINT ->
  (exists w',
      signal_loop (pre ++ signum :: post) w = (Ret LoopExited, w')
      /\ signal_loop (pre ++ [signum]) w = (Ret LoopExited, w')
      /\ lacpd_shutdown w' <> 0)
  /\ (forall rc, fst (main_tail rc (pre ++ signum :: post) w) = Ret (Some 0))
  /\ (lacpd_shutdown w = 0 -> no_term pre ->
      let w1 := snd (signal_loop pre w) in
      let w2 := with_shutdown 1 (with_vlog (vlog w1 ++ [caught_line signum]) w1) in
      signal_loop (pre ++ signum :: post) w = (Ret LoopExited, w2)
      /\ lacpd_shutdown w2 = 1
      /\ ml_queue w2 = ml_queue w1).
Proof.
  intros Hsig. split; [by apply signal_loop_term|]. split.
  - intros rc. unfold main_tail, bind.
    destruct (start_timer_returns rc w) as [w0 ->].
    destruct (signal_loop_term pre w0 signum post Hsig) as (w' & -> & _). done.
  - intros Hsd Hno w1 w2.
    destruct (signal_loop_app pre w (signum :: post) Hsd Hno) as (-> & _ & Hsd1).
    fold w1 in Hsd1 |- *.
    rewrite signal_loop_cons; rewrite ?on_signal_term by done; try done.
    cbn [snd]. by rewrite signal_loop_stopped.
Qed.

Lemma term_signal_stops_loop_witness :
  signal_loop [SIGALRM; 1; SIGTERM; SIGALRM; SIGALRM] w_ok
  = (Ret LoopExited,
     with_shutdown 1
       (with_vlog (vlog (snd (signal_loop [SIGALRM; 1] w_ok))
                   ++ [caught_line SIGTERM])
          (snd (signal_loop [SIGALRM; 1] w_ok))))
  /\ length (q_list (ml_queue
       (snd (signal_loop [SIGALRM; 1; SIGTERM; SIGALRM; SIGALRM] w_ok)))) = 1%nat.
Proof.
  split.
  - apply (proj1 (proj2 (proj2 (term_signal_stops_loop [SIGALRM; 1] SIGTERM
                    [SIGALRM; SIGALRM] w_ok (or_introl eq_refl))) eq_refl
                    ltac:(repeat constructor; discriminate))).
  - reflexivity.
Defined.

(** C10: a signal other than SIGALRM, SIGTERM and SIGINT is logged and
    changes nothing else, the shutdown flag included; the loop goes on with
    the next signal; and as long as neither SIGTERM nor SIGINT arrives the
    loop, entered with the flag clear, is still waiting with the flag
    clear. *)
Theorem other_signals_ignored signum w :
  signum <> SIGALRM -> signum <> SIGTERM -> signum <> SIGINT ->
  on_signal signum w = (Ret tt, with_vlog (vlog w ++ [ignoring_line signum]) w)
  /\ lacpd_shutdown (snd (on_signal signum w)) = lacpd_shutdown w
  /\ (lacpd_shutdown w = 0 ->
      forall rest,
        signal_loop (signum :: rest) w
        = signal_loop rest (snd (on_signal signum w)))
  /\ (forall sigs w0,
        lacpd_shutdown w0 = 0 -> no_term sigs ->
        fst (signal_loop sigs w0) = Ret LoopWaiting
        /\ lacpd_shutdown (snd (signal_loop sigs w0)) = 0).
Proof.
  intros Ha Ht Hi. pose proof (on_signal_other signum w Ha Ht Hi) as Hon.
  split; [done|]. split; [by rewrite Hon|]. split.
  - intros Hsd rest. apply signal_loop_cons; [done | by rewrite Hon].
  - intros sigs w0 Hsd Hno.
    by destruct (signal_loop_app sigs w0 [] Hsd Hno) as (_ & ? & ?).
Qed.

Lemma other_signals_ignored_witness :
  on_signal 1 w_ok = (Ret tt, with_vlog [ignoring_line 1] w_ok)
  /\ fst (signal_loop [1; SIGALRM; 17; 10] w_ok) = Ret LoopWaiting.
Proof.
  split.
  - apply (proj1 (other_signals_ignored 1 w_ok ltac:(discriminate)
                    ltac:(discriminate) ltac:(discriminate))).
  - apply (proj2 (proj2 (proj2 (other_signals_ignored 1 w_ok ltac:(discriminate)
                    ltac:(discriminate) ltac:(discriminate))))).
    + reflexivity.
    + repeat constructor; discriminate.
Defined.

End LacpdFacts.

(* ===================================================================== *)
(** ** The command line                                                   *)
(* ===================================================================== *)

Module OptionsFacts.
Import Options.

Section Facts.
Variable lib_option : Z -> bool.
Variable ovs_rundir : string.

(** The loop is left by [break] exactly when every answer of getopt_long is
    the unixctl option or one of the library's options. *)
Lemma scan_options_completes gs : forall p,
  Forall (fun g => c g <> opt_h
                   /\ (c g = OPT_UNIXCTL \/ lib_option (c g) = true)) gs ->
  exists p', scan_options lib_option gs p = inl p'.
Proof.
  induction gs as [|g gs IH]; intros p Hall; cbn.
  - eauto.
  - apply Forall_cons in Hall as [[Hh Hu] Hall].
    destruct (Z.eqb_spec (c g) opt_h); [done|].
    destruct (Z.eqb_spec (c g) OPT_UNIXCTL); [by apply IH|].
    destruct Hu as [Hu | Hu]; [done|]. rewrite Hu. by apply IH.
Qed.

(** C9, amended: when the option loop is left by [break] (no --help, no
    option getopt_long does not know), [parse_options] looks at the
    arguments that are not options, which getopt_long has left from
    [optind] on in the vector [args]: with none it returns the default
    path unix:<rundir>/db.sock, with exactly one it returns that argument,
    with two or more it ends in VLOG_FATAL. *)
Theorem parse_options_database_argument args gs optind p p' :
  scan_options lib_option gs p = inl p' ->
  (optind <= length args)%nat ->
  parse_options lib_option ovs_rundir args gs optind p
  = match drop optind args with
    | [] => Parsed ("unix:" ++ ovs_rundir ++ "/db.sock")%string p'
    | [a] => Parsed a p'
    | _ :: _ :: _ => Fatal too_many
    end.
Proof.
  intros Hscan Hle. unfold parse_options. rewrite Hscan.
  unfold database_argument.
  pose proof (length_drop args optind) as Hlen.
  destruct (drop optind args) as [|a [|b rest]]; cbn [length] in Hlen.
  - replace (Z.of_nat (length args) - Z.of_nat optind)%Z with 0%Z by lia.
    reflexivity.
  - replace (Z.of_nat (length args) - Z.of_nat optind)%Z with 1%Z by lia.
    reflexivity.
  - destruct (Z.eqb_spec (Z.of_nat (length args) - Z.of_nat optind) 0); [lia|].
    destruct (Z.eqb_spec (Z.of_nat (length args) - Z.of_nat optind) 1); [lia|].
    reflexivity.
Qed.

End Facts.

(** What getopt_long leaves of [db_call]: the same words, the first one in
    place, the one that is not an option last. *)
Lemma db_argv_reorders_db_call :
  Permutation db_call db_argv
  /\ head db_argv = head db_call
  /\ drop 2 db_argv = ["unix:/tmp/db"%string].
Proof.
  split; [|by split]. unfold db_call, db_argv.
  apply perm_skip, perm_swap.
Qed.

(** C9, as stated, fails: [lacpd --help] has no non-option argument, and
    [parse_options] does not return the default path: the process exits
    with EXIT_SUCCESS inside usage(). *)
Lemma parse_options_help_exits :
  drop 2 help_argv = []
  /\ parse_options (fun _ => false) "/var/run/openvswitch"
       help_argv help_answers 2 None
     = Exited EXIT_SUCCESS
  /\ forall db p,
       parse_options (fun _ => false) "/var/run/openvswitch"
         help_argv help_answers 2 None
       <> Parsed db p.
Proof. split; [reflexivity|]. split; [reflexivity|]. intros db p. discriminate. Qed.

Lemma parse_options_database_argument_witness :
  parse_options (fun _ => false) "/var/run/openvswitch" db_argv db_answers 2 None
  = Parsed "unix:/tmp/db" (Some "/tmp/ctl"%string).
Proof.
  apply (parse_options_database_argument (fun _ => false) "/var/run/openvswitch"
           db_argv db_answers 2 None (Some "/tmp/ctl"%string)).
  - reflexivity.
  - cbn. lia.
Defined.

End OptionsFacts.

(* ===================================================================== *)
(** ** More about the signal loop                                         *)
(* ===================================================================== *)

Module LoopFacts.
Import Mqueue Lacpd Daemon LacpdFacts.

Local Open Scope Z_scope.

(** What [on_signal] does, case by case. *)
Lemma on_signal_effect signum w :
  (signum = SIGALRM /\ exists blk h,
      heap w = Some blk :: h
      /\ on_signal signum w
         = (Ret tt,
            with_queue
              (mqueue_send (timer_event (ml_timer_index w) blk) (ml_queue w))
              (with_heap h w)))
  \/ (signum = SIGALRM /\ malloc_fails w = true
      /\ on_signal signum w
         = (Ret tt, with_vlog (vlog w ++ [oom_line]) (with_heap (tail (heap w)) w)))
  \/ (is_term signum
      /\ on_signal signum w
         = (Ret tt, with_shutdown 1 (with_vlog (vlog w ++ [caught_line signum]) w)))
  \/ (signum <> SIGALRM /\ ~ is_term signum
      /\ on_signal signum w
         = (Ret tt, with_vlog (vlog w ++ [ignoring_line signum]) w)).
Proof.
  destruct (Z.eq_dec signum SIGALRM) as [->|Ha].
  - rewrite on_signal_alarm. destruct (malloc_fails w) eqn:E.
    + right; left. by rewrite timerHandler_oom.
    + left. destruct (malloc_fails_false _ E) as (blk & h & Hh).
      split; [done|]. exists blk, h. by rewrite (timerHandler_ok _ _ _ Hh).
  - destruct (Z.eq_dec signum SIGTERM) as [Ht|Ht].
    { right; right; left. split; [by left|]. apply on_signal_term. by left. }
    destruct (Z.eq_dec signum SIGINT) as [Hi|Hi].
    { right; right; left. split; [by right|]. apply on_signal_term. by right. }
    right; right; right. split; [done|]. split.
    + by intros [?|?].
    + by apply on_signal_other.
Qed.

Lemma signal_loop_nil w :
  lacpd_shutdown w = 0 -> signal_loop [] w = (Ret LoopWaiting, w).
Proof. intros H. cbn. by rewrite H. Qed.

(** A relation that holds across every [on_signal] holds across the loop. *)
Lemma signal_loop_preserves (P : world -> world -> Prop) :
  (forall w, P w w) ->
  (forall w1 w2 w3, P w1 w2 -> P w2 w3 -> P w1 w3) ->
  (forall signum w, P w (snd (on_signal signum w))) ->
  forall sigs w, P w (snd (signal_loop sigs w)).
Proof.
  intros Hrefl Htrans Hstep. induction sigs as [|x sigs IH]; intros w.
  all: destruct (Z.eq_dec (lacpd_shutdown w) 0) as [Hsd|Hsd].
  all: rewrite ?signal_loop_stopped by done; try apply Hrefl.
  - by rewrite signal_loop_nil.
  - rewrite signal_loop_cons by (done || apply on_signal_returns).
    eapply Htrans; [apply Hstep | apply IH].
Qed.

Lemma same_setup_refl w : same_setup w w.
Proof. by repeat split. Qed.

Lemma same_setup_trans w1 w2 w3 :
  same_setup w1 w2 -> same_setup w2 w3 -> same_setup w1 w3.
Proof.
  unfold same_setup. intros (?&?&?&?&?&?&?) (?&?&?&?&?&?&?).
  repeat split; congruence.
Qed.

Lemma on_signal_same_setup signum w : same_setup w (snd (on_signal signum w)).
Proof.
  destruct (on_signal_effect signum w)
    as [(_ & blk & h & _ & ->) | [(_ & _ & ->) | [(_ & ->) | (_ & _ & ->)]]].
  all: by repeat split.
Qed.

(** X1: whatever signals arrive, the loop leaves the timer index, the signal
    mask, the threads, the registered commands, the OVSDB connection and
    the interval timer as they were: it only ever touches the shutdown
    flag, the mailbox, the log and the allocator. *)
Theorem signal_loop_same_setup sigs w :
  same_setup w (snd (signal_loop sigs w)).
Proof.
  revert sigs w. apply signal_loop_preserves.
  - apply same_setup_refl.
  - apply same_setup_trans.
  - apply on_signal_same_setup.
Qed.

Lemma timer_event_clean idx blk : clean_timer_event idx (timer_event idx blk).
Proof.
  split; [done|]. cbn. induction (other_bytes blk); by constructor.
Qed.

(** X2: whatever signals arrive and whatever the blocks malloc hands out
    hold, the records already in the mailbox stay where they are, in order;
    what the loop adds comes after them, the semaphore moves by as much,
    and every added record has the timer index as its sender and zero in
    all its other bytes: nothing of the old content of a block gets into
    the mailbox. *)
Theorem signal_loop_appends_clean_events sigs w :
  exists added,
    q_list (ml_queue (snd (signal_loop sigs w))) = q_list (ml_queue w) ++ added
    /\ q_avail (ml_queue (snd (signal_loop sigs w)))
       = (q_avail (ml_queue w) + length added)%nat
    /\ Forall (clean_timer_event (ml_timer_index w)) added.
Proof.
  revert sigs w.
  apply (signal_loop_preserves (fun w w' =>
    ml_timer_index w' = ml_timer_index w /\
    exists added,
      q_list (ml_queue w') = q_list (ml_queue w) ++ added
      /\ q_avail (ml_queue w') = (q_avail (ml_queue w) + length added)%nat
      /\ Forall (clean_timer_event (ml_timer_index w)) added)).
  - intros w. split; [done|]. exists []. rewrite app_nil_r. cbn.
    split; [done|]. split; [lia | constructor].
  - intros w1 w2 w3 (Hi1 & a1 & Hl1 & Ha1 & Hc1) (Hi2 & a2 & Hl2 & Ha2 & Hc2).
    split; [congruence|]. exists (a1 ++ a2).
    rewrite Hl2, Hl1, Ha2, Ha1, length_app, <- app_assoc.
    split; [done|]. split; [lia|].
    apply Forall_app. split; [done|]. by rewrite <- Hi1.
  - intros signum w.
    destruct (on_signal_effect signum w)
      as [(_ & blk & h & _ & ->) | [(_ & _ & ->) | [(_ & ->) | (_ & _ & ->)]]].
    + split; [done|]. exists [timer_event (ml_timer_index w) blk]. cbn.
      split; [done|]. split; [lia|].
      constructor; [apply timer_event_clean | constructor].
    + split; [done|]. exists []. cbn. rewrite app_nil_r.
      split; [done|]. split; [lia | constructor].
    + split; [done|]. exists []. cbn. rewrite app_nil_r.
      split; [done|]. split; [lia | constructor].
    + split; [done|]. exists []. cbn. rewrite app_nil_r.
      split; [done|]. split; [lia | constructor].
Qed.

Lemma no_term_cons x sigs :
  no_term (x :: sigs) <-> ~ is_term x /\ no_term sigs.
Proof.
  unfold no_term, is_term. rewrite Forall_cons. split.
  - intros [[Ht Hi] H]. split; [|done]. by intros [?|?].
  - intros [Hn H]. split; [|done]. split; intros ->; apply Hn; [by left | by right].
Qed.

(** X3: every signal the running loop handles leaves exactly one mark,
    a record in the mailbox or a line in the log: after [sigs] without
    SIGTERM and SIGINT the two together have grown by the number of
    signals, and SIGTERM or SIGINT adds one more and ends the count. *)
Theorem signal_loop_one_mark_each pre : forall w,
  lacpd_shutdown w = 0 -> no_term pre ->
  (length (q_list (ml_queue (snd (signal_loop pre w))))
   + length (vlog (snd (signal_loop pre w)))
   = length (q_list (ml_queue w)) + length (vlog w) + length pre)%nat
  /\ (forall t post, is_term t ->
      (length (q_list (ml_queue (snd (signal_loop (pre ++ t :: post) w))))
       + length (vlog (snd (signal_loop (pre ++ t :: post) w)))
       = length (q_list (ml_queue w)) + length (vlog w) + length pre + 1)%nat).
Proof.
  induction pre as [|x pre IH]; intros w Hsd Hno.
  - split; [rewrite signal_loop_nil by done; cbn; lia|].
    intros t post Ht. cbn [app].
    rewrite signal_loop_cons by (done || apply on_signal_returns).
    rewrite on_signal_term by done. cbn [snd].
    rewrite signal_loop_stopped by done. cbn. rewrite length_app. cbn. lia.
  - apply no_term_cons in Hno as [Hx Hno].
    assert (lacpd_shutdown (snd (on_signal x w)) = 0
            /\ (length (q_list (ml_queue (snd (on_signal x w))))
                + length (vlog (snd (on_signal x w)))
                = length (q_list (ml_queue w)) + length (vlog w) + 1)%nat)
      as [Hsd1 Hone].
    { destruct (on_signal_effect x w)
        as [(_ & blk & h & _ & ->) | [(_ & _ & ->) | [(Ht & _) | (_ & _ & ->)]]].
      all: try done; cbn; rewrite ?length_app; cbn; split; (done || lia). }
    destruct (IH _ Hsd1 Hno) as [IH1 IH2]. split.
    + rewrite signal_loop_cons by (done || apply on_signal_returns).
      rewrite IH1. cbn [length]. lia.
    + intros t post Ht. rewrite <- app_comm_cons.
      rewrite signal_loop_cons by (done || apply on_signal_returns).
      rewrite (IH2 t post Ht). cbn [length]. lia.
Qed.

Lemma alarms_cons_alarm sigs : alarms (SIGALRM :: sigs) = S (alarms sigs).
Proof. unfold alarms. by rewrite filter_cons_True. Qed.

Lemma alarms_cons_other x sigs : x <> SIGALRM -> alarms (x :: sigs) = alarms sigs.
Proof. intros H. unfold alarms. by rewrite filter_cons_False. Qed.

Lemma not_alarm_cons_alarm sigs : not_alarm (SIGALRM :: sigs) = not_alarm sigs.
Proof. unfold not_alarm. rewrite filter_cons_False; [done|]. by intros H. Qed.

Lemma not_alarm_cons_other x sigs :
  x <> SIGALRM -> not_alarm (x :: sigs) = x :: not_alarm sigs.
Proof. intros H. unfold not_alarm. by rewrite filter_cons_True. Qed.

(** X4: as long as malloc has a block for every SIGALRM, no tick is lost:
    after signals [sigs] without SIGTERM and SIGINT the loop is still
    waiting, the mailbox has got one record for each SIGALRM, built in the
    blocks in the order malloc gave them, the blocks are used up, and the
    log has one line for each signal other than SIGALRM and none about
    memory. *)
Theorem signal_loop_no_tick_lost sigs : forall w blks h,
  lacpd_shutdown w = 0 ->
  no_term sigs ->
  heap w = map Some blks ++ h ->
  length blks = alarms sigs ->
  signal_loop sigs w
  = (Ret LoopWaiting,
     with_vlog (vlog w ++ map ignoring_line (not_alarm sigs))
       (with_queue
          (mqueue_send_all (map (timer_event (ml_timer_index w)) blks) (ml_queue w))
          (with_heap h w))).
Proof.
  induction sigs as [|x sigs IH]; intros w blks h Hsd Hno Hheap Hlen.
  - destruct blks; [|done]. cbn in Hheap. rewrite signal_loop_nil by done.
    cbn. rewrite app_nil_r. destruct w; cbn in *. by subst.
  - apply no_term_cons in Hno as [Hx Hno].
    rewrite signal_loop_cons by (done || apply on_signal_returns).
    destruct (on_signal_effect x w)
      as [(-> & blk & h' & Hh & ->) | [(-> & Hf & _) | [(Ht & _) | (Ha & _ & ->)]]].
    + rewrite alarms_cons_alarm in Hlen. destruct blks as [|b blks]; [done|].
      rewrite Hh in Hheap. cbn in Hheap. injection Hheap as -> ->.
      cbn [snd].
      rewrite (IH _ blks h); [| by cbn | done | by cbn | by injection Hlen].
      rewrite not_alarm_cons_alarm. destruct w; reflexivity.
    + rewrite alarms_cons_alarm in Hlen. destruct blks as [|b blks]; [done|].
      unfold malloc_fails in Hf. rewrite Hheap in Hf. done.
    + done.
    + rewrite alarms_cons_other in Hlen by done.
      cbn [snd]. rewrite (IH _ blks h); [| by cbn | done | by cbn | done].
      rewrite not_alarm_cons_other by done. cbn.
      rewrite <- app_assoc. destruct w; reflexivity.
Qed.

Lemma signal_loop_no_tick_lost_witness :
  signal_loop [SIGALRM; 1; SIGALRM] (fresh [Some junk; Some junk; None])
  = (Ret LoopWaiting,
     with_vlog [ignoring_line 1]
       (with_queue
          (Build_mqueue [Build_event 7 [0; 0; 0; 0]; Build_event 7 [0; 0; 0; 0]]
             None 2)
          (with_heap [None] (fresh [Some junk; Some junk; None])))).
Proof.
  apply (signal_loop_no_tick_lost [SIGALRM; 1; SIGALRM]
           (fresh [Some junk; Some junk; None]) [junk; junk] [None]).
  - reflexivity.
  - repeat constructor; discriminate.
  - reflexivity.
  - reflexivity.
Defined.

(** X5: once malloc has nothing left to give, every tick is dropped: after
    signals [sigs] without SIGTERM and SIGINT the loop is still waiting, the
    mailbox is as it was, and the log has one line for each signal, the
    out-of-memory line for each SIGALRM. *)
Theorem signal_loop_out_of_memory sigs : forall w,
  lacpd_shutdown w = 0 ->
  no_term sigs ->
  heap w = [] ->
  signal_loop sigs w
  = (Ret LoopWaiting, with_vlog (vlog w ++ map dropped_line sigs) w).
Proof.
  induction sigs as [|x sigs IH]; intros w Hsd Hno Hheap.
  - rewrite signal_loop_nil by done. cbn. rewrite app_nil_r. by destruct w.
  - apply no_term_cons in Hno as [Hx Hno].
    rewrite signal_loop_cons by (done || apply on_signal_returns).
    destruct (on_signal_effect x w)
      as [(-> & blk & h' & Hh & _) | [(-> & Hf & ->) | [(Ht & _) | (Ha & _ & ->)]]].
    + by rewrite Hheap in Hh.
    + cbn [snd]. rewrite IH; [| by cbn | done | by (cbn; rewrite Hheap)].
      cbn. rewrite <- app_assoc, Hheap. by destruct w; cbn in *; subst.
    + done.
    + cbn [snd]. rewrite IH; [| by cbn | done | by cbn].
      cbn. rewrite <- app_assoc. unfold dropped_line at 2.
      destruct (Z.eqb_spec x SIGALRM); [done|]. by destruct w.
Qed.

Lemma signal_loop_out_of_memory_witness :
  signal_loop [SIGALRM; 1; SIGALRM] (fresh [])
  = (Ret LoopWaiting,
     with_vlog [oom_line; ignoring_line 1; oom_line] (fresh [])).
Proof.
  apply (signal_loop_out_of_memory [SIGALRM; 1; SIGALRM] (fresh [])).
  - reflexivity.
  - repeat constructor; discriminate.
  - reflexivity.
Defined.

Lemma signal_loop_one_mark_each_witness :
  (length (q_list (ml_queue (snd (signal_loop [SIGALRM; 1%Z; SIGALRM] w_ok))))
   + length (vlog (snd (signal_loop [SIGALRM; 1%Z; SIGALRM] w_ok))) = 3)%nat.
Proof.
  apply (proj1 (signal_loop_one_mark_each [SIGALRM; 1; SIGALRM] w_ok eq_refl
                  ltac:(repeat constructor; discriminate))).
Defined.

Lemma signal_loop_exit_iff sigs : forall w,
  (fst (signal_loop sigs w) = Ret LoopExited
   \/ fst (signal_loop sigs w) = Ret LoopWaiting)
  /\ (fst (signal_loop sigs w) = Ret LoopExited
      <-> lacpd_shutdown w <> 0 \/ Exists is_term sigs).
Proof.
  induction sigs as [|x sigs IH]; intros w.
  all: destruct (Z.eq_dec (lacpd_shutdown w) 0) as [Hsd|Hsd].
  all: rewrite ?signal_loop_stopped by done; cbn [fst].
  all: try (split; [by left | split; [by left | done]]).
  - rewrite signal_loop_nil by done. cbn [fst].
    split; [by right|]. split; [done|].
    intros [?|H]; [done | by apply Exists_nil in H].
  - rewrite signal_loop_cons by (done || apply on_signal_returns).
    destruct (IH (snd (on_signal x w))) as [IH1 IH2]. split; [done|].
    rewrite IH2, Exists_cons.
    destruct (on_signal_effect x w)
      as [(-> & blk & h & _ & ->) | [(-> & _ & ->) | [(Ht & ->) | (Ha & Hn & ->)]]].
    all: cbn [snd]; cbn.
    + split; intros [?|H]; try done; right; [by right|].
      destruct H as [[?|?]|?]; done.
    + split; intros [?|H]; try done; right; [by right|].
      destruct H as [[?|?]|?]; done.
    + split; [intros _; right; by left | intros _; by left].
    + split; intros [?|H]; try done; right; [by right|].
      destruct H as [?|?]; done.
Qed.

(** X6: the end of [main] never calls exit: it either returns 0 or is
    still waiting in sigwait, whether setitimer succeeded or not; and it
    returns exactly when the shutdown flag was already set or SIGTERM or
    SIGINT is among the signals. *)
Theorem main_tail_returns_zero_on_term rc sigs w :
  (fst (main_tail rc sigs w) = Ret (Some 0)
   \/ fst (main_tail rc sigs w) = Ret None)
  /\ (fst (main_tail rc sigs w) = Ret (Some 0)
      <-> lacpd_shutdown w <> 0 \/ Exists is_term sigs).
Proof.
  assert (exists w0, start_timer rc w = (Ret tt, w0)
                     /\ lacpd_shutdown w0 = lacpd_shutdown w) as (w0 & Hst & Hsd).
  { unfold start_timer. destruct (rc =? 0); eexists; split; reflexivity. }
  unfold main_tail, bind. rewrite Hst.
  destruct (signal_loop_exit_iff sigs w0) as [Hor Hiff].
  rewrite Hsd in Hiff. rewrite <- Hiff.
  destruct (signal_loop sigs w0) as [[[|]|st] w1]; cbn in *.
  - split; [by left | done].
  - split; [by right|]. split; intros H; done.
  - by destruct Hor.
Qed.

End LoopFacts.

(* ===================================================================== *)
(** ** More about the command line                                        *)
(* ===================================================================== *)

Module OptionsMore.
Import Options Daemon.

Local Open Scope Z_scope.

Section Facts.
Variable lib_option : Z -> bool.
Variable ovs_rundir : string.

(** What the loop makes of one answer. *)
Lemma scan_options_cons g gs p :
  scan_options lib_option (g :: gs) p
  = if Z.eqb (c g) opt_h then inr usage
    else if Z.eqb (c g) OPT_UNIXCTL
         then scan_options lib_option gs (Some (optarg g))
    else if lib_option (c g) then scan_options lib_option gs p
    else if Z.eqb (c g) opt_unknown then inr (Exited EXIT_FAILURE)
    else inr Aborted.
Proof. reflexivity. Qed.

Lemma accepted_step g gs p :
  accepted lib_option g ->
  scan_options lib_option (g :: gs) p
  = scan_options lib_option gs
      (if Z.eqb (c g) OPT_UNIXCTL then Some (optarg g) else p).
Proof.
  intros [Hh Hu]. rewrite scan_options_cons.
  destruct (Z.eqb_spec (c g) opt_h); [done|].
  destruct (Z.eqb_spec (c g) OPT_UNIXCTL); [done|].
  destruct Hu as [Hu | Hu]; [done|]. by rewrite Hu.
Qed.

Lemma rejected_step g gs p :
  ~ accepted lib_option g ->
  scan_options lib_option (g :: gs) p
  = inr (if Z.eqb (c g) opt_h then Exited EXIT_SUCCESS
         else if Z.eqb (c g) opt_unknown then Exited EXIT_FAILURE
         else Aborted).
Proof.
  intros Hn. rewrite scan_options_cons.
  destruct (Z.eqb_spec (c g) opt_h); [done|].
  destruct (Z.eqb_spec (c g) OPT_UNIXCTL) as [Hu|Hu].
  { exfalso. apply Hn. split; [done | by left]. }
  destruct (lib_option (c g)) eqn:Hl.
  { exfalso. apply Hn. split; [done | by right]. }
  by destruct (Z.eqb_spec (c g) opt_unknown).
Qed.

Lemma accepted_dec g : accepted lib_option g \/ ~ accepted lib_option g.
Proof.
  unfold accepted.
  destruct (Z.eq_dec (c g) opt_h); [right; by intros [? _]|].
  destruct (Z.eq_dec (c g) OPT_UNIXCTL); [left; split; [done | by left]|].
  destruct (lib_option (c g)); [left; split; [done | by right]|].
  right. intros [_ [?|?]]; done.
Qed.

(** The loop runs to its end exactly on accepted answers. *)
Lemma scan_options_accepts gs : forall p,
  (exists p', scan_options lib_option gs p = inl p')
  <-> Forall (accepted lib_option) gs.
Proof.
  induction gs as [|g gs IH]; intros p.
  - split; [constructor | by exists p].
  - destruct (accepted_dec g) as [Ha | Hn].
    + rewrite accepted_step by done. rewrite IH, Forall_cons. tauto.
    + rewrite rejected_step by done. split.
      * by intros [p' H].
      * intros H. by apply Forall_cons in H as [? _].
Qed.

(** X7: the option loop is left by [break], so that the arguments are looked
    at, exactly when every answer of getopt_long is the unixctl option or
    one of the library's options; --help, '?' and any other code end the
    process. *)
Theorem scan_options_completes_iff gs p :
  (exists p', scan_options lib_option gs p = inl p')
  <-> Forall (accepted lib_option) gs.
Proof.
  split.
  - intros H. by apply (proj1 (scan_options_accepts gs p)).
  - intros H. by apply (proj2 (scan_options_accepts gs p)).
Qed.

(** X8: the first answer that is neither the unixctl option nor a library
    option decides how the process ends, whatever answers and arguments
    come after it: exit(EXIT_SUCCESS) for --help, exit(EXIT_FAILURE) for
    '?', abort() for anything else.  So --help wins over too many
    arguments, and an unknown option before --help wins over --help. *)
Theorem parse_options_first_rejected_decides gs1 g gs2 argv optind p :
  Forall (accepted lib_option) gs1 ->
  ~ accepted lib_option g ->
  parse_options lib_option ovs_rundir argv (gs1 ++ g :: gs2) optind p
  = if Z.eqb (c g) opt_h then Exited EXIT_SUCCESS
    else if Z.eqb (c g) opt_unknown then Exited EXIT_FAILURE
    else Aborted.
Proof.
  intros Hacc Hn. unfold parse_options.
  assert (scan_options lib_option (gs1 ++ g :: gs2) p
          = inr (if Z.eqb (c g) opt_h then Exited EXIT_SUCCESS
                 else if Z.eqb (c g) opt_unknown then Exited EXIT_FAILURE
                 else Aborted)) as ->; [|done].
  revert p. induction Hacc as [|a gs1 Ha Hacc IH]; intros p.
  - by apply rejected_step.
  - rewrite <- app_comm_cons, accepted_step by done. apply IH.
Qed.

Lemma scan_options_no_unixctl gs : forall p p',
  Forall (fun g => c g <> OPT_UNIXCTL) gs ->
  scan_options lib_option gs p = inl p' -> p' = p.
Proof.
  induction gs as [|g gs IH]; intros p p' Hno Hs.
  - by injection Hs.
  - apply Forall_cons in Hno as [Hg Hno].
    destruct (accepted_dec g) as [Ha | Hn].
    + rewrite accepted_step in Hs by done.
      destruct (Z.eqb_spec (c g) OPT_UNIXCTL); [done|]. by apply IH.
    + by rewrite rejected_step in Hs.
Qed.

Lemma scan_options_last_unixctl gs1 : forall o gs2 p p',
  Forall (fun g => c g <> OPT_UNIXCTL) gs2 ->
  scan_options lib_option (gs1 ++ Build_getopt OPT_UNIXCTL o :: gs2) p = inl p' ->
  p' = Some o.
Proof.
  induction gs1 as [|g gs1 IH]; intros o gs2 p p' Hno Hs.
  - cbn [app] in Hs. rewrite scan_options_cons in Hs. cbn in Hs.
    by apply scan_options_no_unixctl in Hs.
  - rewrite <- app_comm_cons in Hs.
    destruct (accepted_dec g) as [Ha | Hn].
    + rewrite accepted_step in Hs by done. by eapply IH.
    + by rewrite rejected_step in Hs.
Qed.

(** Inside the loop the process ends by exit or abort only. *)
Lemma scan_options_ends gs : forall p o,
  scan_options lib_option gs p = inr o ->
  o = Exited EXIT_SUCCESS \/ o = Exited EXIT_FAILURE \/ o = Aborted.
Proof.
  induction gs as [|g gs IH]; intros p o Hs; [done|].
  destruct (accepted_dec g) as [Ha | Hn].
  - rewrite accepted_step in Hs by done. by eapply IH.
  - rewrite rejected_step in Hs by done. injection Hs as <-.
    destruct (c g =? opt_h); [by left|].
    destruct (c g =? opt_unknown); [right; by left | right; by right].
Qed.

(** What a returning [parse_options] has gone through. *)
Lemma parse_options_parsed argv gs optind p db up :
  parse_options lib_option ovs_rundir argv gs optind p = Parsed db up ->
  scan_options lib_option gs p = inl up
  /\ ((drop optind argv = []
       /\ db = ("unix:" ++ ovs_rundir ++ "/db.sock")%string)
      \/ drop optind argv = [db]).
Proof.
  unfold parse_options, database_argument.
  destruct (scan_options lib_option gs p) as [p'|o] eqn:Hs.
  2: { intros ->. by destruct (scan_options_ends _ _ _ Hs) as [?|[?|?]]. }
  pose proof (length_drop argv optind) as Hlen.
  destruct (Z.eqb_spec (Z.of_nat (length argv) - Z.of_nat optind) 0) as [H0|H0].
  { intros [= <- <-]. split; [done|]. left. split; [|done].
    apply nil_length_inv. lia. }
  destruct (Z.eqb_spec (Z.of_nat (length argv) - Z.of_nat optind) 1) as [H1|H1];
    [|done].
  destruct (drop optind argv) as [|a [|b l]] eqn:Hd; cbn [length] in Hlen.
  - done.
  - intros [= <- <-]. split; [done | by right].
  - lia.
Qed.

(** X9: [parse_options] returns only when the option loop ran to its end and
    at most one argument that is not an option is left, that is, at most
    one entry from [optind] on in the vector [args] that getopt_long has
    left: the path it returns is then the default path if none is left and
    that argument otherwise.  It never returns with two or more arguments
    left, nor after a rejected option. *)
Theorem parse_options_returns_only_if args gs optind p db up :
  parse_options lib_option ovs_rundir args gs optind p = Parsed db up ->
  Forall (accepted lib_option) gs
  /\ (optind <= length args)%nat
  /\ ((drop optind args = []
       /\ db = ("unix:" ++ ovs_rundir ++ "/db.sock")%string)
      \/ drop optind args = [db]).
Proof.
  intros Hp. destruct (parse_options_parsed _ _ _ _ _ _ Hp) as [Hs Hd].
  split; [apply (proj1 (scan_options_accepts gs p)); by exists up|].
  split; [|done].
  unfold parse_options in Hp. rewrite Hs in Hp. unfold database_argument in Hp.
  destruct (Z.eqb_spec (Z.of_nat (length args) - Z.of_nat optind) 0); [lia|].
  destruct (Z.eqb_spec (Z.of_nat (length args) - Z.of_nat optind) 1); [lia|done].
Qed.

(** X10: when the option loop runs to its end, the control socket path
    handed back through [unixctl_pathp] is the argument of the last
    --unixctl option; without such an option the path is left as the
    caller set it (NULL in [main], which selects the default socket). *)
Theorem parse_options_unixctl_path argv optind p :
  (forall gs1 o gs2,
     Forall (accepted lib_option) gs1 ->
     Forall (accepted lib_option) gs2 ->
     Forall (fun g => c g <> OPT_UNIXCTL) gs2 ->
     parse_options lib_option ovs_rundir argv
       (gs1 ++ Build_getopt OPT_UNIXCTL o :: gs2) optind p
     = database_argument ovs_rundir argv optind (Some o))
  /\ (forall gs,
     Forall (accepted lib_option) gs ->
     Forall (fun g => c g <> OPT_UNIXCTL) gs ->
     parse_options lib_option ovs_rundir argv gs optind p
     = database_argument ovs_rundir argv optind p).
Proof.
  split.
  - intros gs1 o gs2 Ha1 Ha2 Hno. unfold parse_options.
    assert (Forall (accepted lib_option)
              (gs1 ++ Build_getopt OPT_UNIXCTL o :: gs2)) as Hall.
    { apply Forall_app. split; [done|]. constructor; [|done].
      split; [discriminate | by left]. }
    apply (proj2 (scan_options_accepts _ p)) in Hall as [p' Hs].
    rewrite Hs. by rewrite (scan_options_last_unixctl _ _ _ _ _ Hno Hs).
  - intros gs Ha Hno. unfold parse_options.
    apply (proj2 (scan_options_accepts _ p)) in Ha as [p' Hs].
    rewrite Hs. by rewrite (scan_options_no_unixctl _ _ _ Hno Hs).
Qed.

End Facts.

Lemma parse_options_first_rejected_decides_witness :
  parse_options (fun _ => false) "/var/run/openvswitch"
    ["lacpd"; "--unixctl=/tmp/ctl"; "--help"; "a"; "b"]%string
    [Build_getopt OPT_UNIXCTL "/tmp/ctl"; Build_getopt opt_h EmptyString] 3 None
  = Exited EXIT_SUCCESS.
Proof.
  apply (parse_options_first_rejected_decides (fun _ => false)
           "/var/run/openvswitch"
           [Build_getopt OPT_UNIXCTL "/tmp/ctl"] (Build_getopt opt_h EmptyString) []).
  - constructor; [split; [discriminate | by left] | constructor].
  - intros [H _]. by apply H.
Defined.

Lemma parse_options_returns_only_if_witness :
  Forall (accepted (fun _ => false)) db_answers
  /\ (2 <= length db_argv)%nat
  /\ ((drop 2 db_argv = []
       /\ "unix:/tmp/db"%string
          = ("unix:" ++ "/var/run/openvswitch" ++ "/db.sock")%string)
      \/ drop 2 db_argv = ["unix:/tmp/db"%string]).
Proof.
  apply (parse_options_returns_only_if (fun _ => false) "/var/run/openvswitch"
           db_argv db_answers 2 None "unix:/tmp/db" (Some "/tmp/ctl"%string)).
  reflexivity.
Defined.

Lemma parse_options_unixctl_path_witness :
  parse_options (fun _ => false) "/var/run/openvswitch"
    ["lacpd"; "--unixctl=/tmp/a"; "--unixctl=/tmp/b"]%string
    [Build_getopt OPT_UNIXCTL "/tmp/a"; Build_getopt OPT_UNIXCTL "/tmp/b"] 3 None
  = Parsed "unix:/var/run/openvswitch/db.sock" (Some "/tmp/b"%string).
Proof.
  apply (proj1 (parse_options_unixctl_path (fun _ => false) "/var/run/openvswitch"
                  ["lacpd"; "--unixctl=/tmp/a"; "--unixctl=/tmp/b"]%string 3 None)
           [Build_getopt OPT_UNIXCTL "/tmp/a"] "/tmp/b"%string []).
  - constructor; [split; [discriminate | by left] | constructor].
  - constructor.
  - constructor.
Defined.

End OptionsMore.

(* ===================================================================== *)
(** ** The OVSDB interface thread and [main]                              *)
(* ===================================================================== *)

Module DaemonFacts.
Import Mqueue Lacpd Daemon LacpdFacts LoopFacts.

Local Open Scope Z_scope.

(** *** The thread *)

Lemma serve_exits exits : forall d,
  fold_left (fun d conn => halon_lacpd_exit conn d) exits d
  = Build_daemon (proc d)
      (match exits with [] => exiting d | _ => true end)
      (calls d ++ map (fun conn => unixctl_command_reply conn None) exits).
Proof.
  induction exits as [|x exits IH]; intros d; cbn.
  - rewrite app_nil_r. by destruct d.
  - rewrite IH. cbn. rewrite <- app_assoc. by destruct exits.
Qed.

Lemma ovs_iteration_quiet d :
  exiting d = false ->
  ovs_iteration [] d = Build_daemon (proc d) false (calls d ++ quiet_turn).
Proof.
  intros He. unfold ovs_iteration, do_call. cbn. rewrite !He. cbn.
  by rewrite <- !app_assoc.
Qed.

Lemma ovs_iteration_exit exits d :
  exits <> [] ->
  ovs_iteration exits d
  = Build_daemon (proc d) true
      (calls d ++ [lacpd_run; unixctl_server_run]
       ++ map (fun conn => unixctl_command_reply conn None) exits
       ++ [lacpd_wait; unixctl_server_wait; poll_immediate_wake]).
Proof.
  intros Hne. destruct exits as [|x exits]; [done|].
  unfold ovs_iteration. rewrite serve_exits. unfold do_call; cbn.
  by rewrite <- !app_assoc.
Qed.

Lemma ovs_while_quiet k : forall d,
  exiting d = false ->
  ovs_while (replicate k []) d
  = (ThreadRunning,
     Build_daemon (proc d) false (calls d ++ concat (replicate k quiet_turn))).
Proof.
  induction k as [|k IH]; intros d He.
  - cbn. rewrite He, app_nil_r. by destruct d; cbn in *; subst.
  - cbn [replicate ovs_while]. rewrite He.
    rewrite ovs_iteration_quiet by done. rewrite IH by done.
    cbn [proc calls concat]. by rewrite <- app_assoc.
Qed.

Lemma ovs_while_app_quiet k : forall rest d,
  exiting d = false ->
  ovs_while (replicate k [] ++ rest) d
  = ovs_while rest
      (Build_daemon (proc d) false (calls d ++ concat (replicate k quiet_turn))).
Proof.
  induction k as [|k IH]; intros rest d He.
  - cbn. rewrite app_nil_r. by destruct d; cbn in *; subst.
  - cbn [replicate app ovs_while]. rewrite He.
    rewrite ovs_iteration_quiet by done. rewrite IH by done.
    cbn [proc calls concat]. by rewrite <- app_assoc.
Qed.

(** X11: the thread leaves its loop in the turn in which an exit command
    arrives, and only then.  Whatever [exiting] held when the thread
    started, after [k] turns without the command and one turn with it the
    thread has made exactly these calls: the five of a quiet turn [k]
    times (each ends in poll_block), then that turn's (a NULL reply to each
    exit command, poll_immediate_wake in place of poll_block), then
    lacpd_ovsdb_if_exit and unixctl_server_destroy, once each; it has
    written one line to the log; and the turns that would follow never
    run. *)
Theorem ovs_thread_ends_on_exit k exits later d :
  exits <> [] ->
  lacpd_ovs_main_thread (replicate k [] ++ exits :: later) d
  = (ThreadReturned,
     Build_daemon
       (with_vlog (vlog (proc d) ++ [exiting_line]) (proc d))
       true
       (calls d ++ concat (replicate k quiet_turn) ++ last_turn exits)).
Proof.
  intros Hne. unfold lacpd_ovs_main_thread.
  rewrite ovs_while_app_quiet by done.
  cbn [ovs_while exiting]. rewrite ovs_iteration_exit by done.
  destruct later; cbn [ovs_while exiting].
  all: unfold lacpd_exit, do_call, on_proc, with_proc, last_turn; cbn.
  all: do 2 f_equal; repeat (rewrite <- app_assoc; cbn [app]); done.
Qed.

Lemma ovs_thread_ends_on_exit_witness :
  lacpd_ovs_main_thread [[]; []; [4%nat]; []; [5%nat]] (cold [])
  = (ThreadReturned,
     Build_daemon (with_vlog [exiting_line] (fresh [])) true
       (quiet_turn ++ quiet_turn ++ last_turn [4%nat])).
Proof.
  apply (ovs_thread_ends_on_exit 2 [4%nat] [[]; [5%nat]] (cold [])).
  discriminate.
Defined.

(** X12: as long as no exit command arrives the thread stays in its loop:
    after [k] turns it has made the five calls of a quiet turn [k] times,
    poll_block last, and nothing else; it has not called
    lacpd_ovsdb_if_exit or unixctl_server_destroy, and has written
    nothing to the log. *)
Theorem ovs_thread_runs_without_exit k d :
  lacpd_ovs_main_thread (replicate k []) d
  = (ThreadRunning,
     Build_daemon (proc d) false (calls d ++ concat (replicate k quiet_turn))).
Proof.
  unfold lacpd_ovs_main_thread. by rewrite ovs_while_quiet.
Qed.

Lemma ovs_iteration_proc exits d :
  proc (ovs_iteration exits d) = proc d.
Proof.
  unfold ovs_iteration. rewrite serve_exits. cbn.
  destruct exits; cbn; [by destruct (exiting d) | done].
Qed.

Lemma ovs_while_proc iters : forall d,
  proc (snd (ovs_while iters d)) = proc d.
Proof.
  induction iters as [|x iters IH]; intros d; cbn.
  all: destruct (exiting d); try done.
  by rewrite IH, ovs_iteration_proc.
Qed.

Lemma ovs_thread_proc iters d :
  exists l,
    proc (snd (lacpd_ovs_main_thread iters d))
    = with_vlog (vlog (proc d) ++ l) (proc d).
Proof.
  unfold lacpd_ovs_main_thread.
  pose proof (ovs_while_proc iters (set_exiting false d)) as Hp.
  destruct (ovs_while iters (set_exiting false d)) as [[|] d']; cbn in *.
  - exists [exiting_line]. by rewrite Hp.
  - exists []. rewrite Hp, app_nil_r. by destruct (proc d).
Qed.

(** X13: nothing in [lacpd_ovs_main_thread], [lacpd_exit] or
    [halon_lacpd_exit] writes [lacpd_shutdown]: whatever turns the thread
    runs, exit command included, the code of lacpd.c leaves the state of
    the process as it was but for the log; so the loop of [main], entered
    with the flag clear, is still waiting for SIGTERM or SIGINT after the
    thread has ended. *)
Theorem ovs_thread_exit_leaves_main_waiting iters d sigs :
  lacpd_shutdown (proc d) = 0 ->
  no_term sigs ->
  let w' := proc (snd (lacpd_ovs_main_thread iters d)) in
  with_vlog (vlog (proc d)) w' = proc d
  /\ lacpd_shutdown w' = 0
  /\ fst (signal_loop sigs w') = Ret LoopWaiting.
Proof.
  intros Hsd Hno w'. destruct (ovs_thread_proc iters d) as [l Hl].
  subst w'. rewrite Hl. split; [by destruct (proc d)|]. split; [done|].
  by destruct (signal_loop_app sigs (with_vlog (vlog (proc d) ++ l) (proc d)) []
                 Hsd Hno) as (_ & ? & _).
Qed.

Lemma ovs_thread_exit_leaves_main_waiting_witness :
  lacpd_shutdown (proc (snd (lacpd_ovs_main_thread [[]; [4%nat]] (cold [])))) = 0
  /\ fst (signal_loop [SIGALRM; 1]
            (proc (snd (lacpd_ovs_main_thread [[]; [4%nat]] (cold [])))))
     = Ret LoopWaiting.
Proof.
  apply (proj2 (ovs_thread_exit_leaves_main_waiting [[]; [4%nat]] (cold [])
                  [SIGALRM; 1] eq_refl ltac:(repeat constructor; discriminate))).
Defined.

(** *** [main] *)

Lemma main_tail_never_exits rc sigs w :
  exists o w', main_tail rc sigs w = (Ret o, w') /\ (o = Some 0 \/ o = None).
Proof.
  unfold main_tail, bind.
  destruct (start_timer_returns rc w) as [w0 ->].
  destruct (signal_loop_exit_iff sigs w0) as [[H|H] _].
  all: destruct (signal_loop sigs w0) as [r w1]; cbn in H; subst r.
  all: do 2 eexists; split; [reflexivity|]; (by left) || (by right).
Qed.

Lemma scan_options_help gs : forall lib_option p,
  Options.scan_options lib_option gs p = inr (Options.Exited Options.EXIT_SUCCESS) ->
  Exists (fun g => Options.c g = Options.opt_h) gs.
Proof.
  induction gs as [|g gs IH]; intros lib_option p Hs; [done|].
  destruct (OptionsMore.accepted_dec lib_option g) as [Ha | Hn].
  - rewrite OptionsMore.accepted_step in Hs by done.
    apply Exists_cons. right. by eapply IH.
  - rewrite OptionsMore.rejected_step in Hs by done.
    apply Exists_cons. left.
    destruct (Z.eqb_spec (Options.c g) Options.opt_h); [done|].
    by destruct (Options.c g =? Options.opt_unknown).
Qed.

(** *** [main] through its fields *)

Lemma calls_do_call c d : calls (do_call c d) = calls d ++ [c].
Proof. reflexivity. Qed.
Lemma proc_do_call c d : proc (do_call c d) = proc d.
Proof. reflexivity. Qed.
Lemma calls_with_proc w d : calls (with_proc w d) = calls d.
Proof. reflexivity. Qed.
Lemma proc_with_proc w d : proc (with_proc w d) = w.
Proof. reflexivity. Qed.
Lemma calls_on_proc f d : calls (on_proc f d) = calls d.
Proof. reflexivity. Qed.
Lemma proc_on_proc f d : proc (on_proc f d) = f (proc d).
Proof. reflexivity. Qed.

Ltac daemon_fields :=
  repeat (rewrite calls_do_call || rewrite proc_do_call
          || rewrite calls_with_proc || rewrite proc_with_proc
          || rewrite calls_on_proc || rewrite proc_on_proc).

Section MainFacts.
Variable lib_option : Z -> bool.
Variable ovs_rundir : string.
Variable mlacp_init : world -> world.


(** X15: when the command line is rejected or the control socket cannot be
    created, [main] ends before any of its own set-up: lacpd.c has
    registered no command, blocked no signal, created no thread and armed
    no timer.  The log apart, the state it keeps is exactly what it was;
    and the log has gained the line of VLOG_FATAL when that is how the
    command line was rejected, and nothing otherwise. *)
Theorem main_early_failure_only_logs e d :
  (forall db up,
     Options.parse_options lib_option ovs_rundir
       (env_argv e) (env_answers e) (env_optind e) None
     <> Options.Parsed db up)
  \/ rc_unixctl e <> 0 ->
  reached_loop (fst (main lib_option ovs_rundir mlacp_init e d)) = false
  /\ vlog (proc (snd (main lib_option ovs_rundir mlacp_init e d)))
     = vlog (proc d)
       ++ match fst (main lib_option ovs_rundir mlacp_init e d) with
          | MainFatal msg => [fatal_line msg]
          | _ => []
          end
  /\ with_vlog (vlog (proc d))
       (proc (snd (main lib_option ovs_rundir mlacp_init e d)))
     = proc d.
Proof.
  intros H. unfold main. cbv zeta.
  destruct (Options.parse_options lib_option ovs_rundir
              (env_argv e) (env_answers e) (env_optind e) None)
    as [db up|st| |msg] eqn:Hp.
  2-4: cbn [fst snd reached_loop]; daemon_fields; cbn [vlog];
       rewrite ?app_nil_r; by destruct (proc d).
  destruct H as [H|H]; [by destruct (H db up)|].
  destruct (Z.eqb_spec (rc_unixctl e) 0); [done|]. cbv iota beta delta [negb].
  cbn [fst snd reached_loop]. daemon_fields. rewrite app_nil_r.
  by destruct (proc d).
Qed.

(** X16: the ways [main] can end through the code of lacpd.c, and their
    statuses.  It returns only 0.  It exits with EXIT_SUCCESS only when
    --help was among the options; otherwise it exits with EXIT_FAILURE, or
    with minus the error of a failed pthread_create.  VLOG_FATAL is
    reached only with the message about too many arguments. *)
Theorem main_exit_status e d :
  match fst (main lib_option ovs_rundir mlacp_init e d) with
  | MainReturned st => st = 0
  | MainExited st =>
      (st = Options.EXIT_SUCCESS
       /\ Exists (fun g => Options.c g = Options.opt_h) (env_answers e))
      \/ st = Options.EXIT_FAILURE
      \/ (st = - rc_pthread e /\ rc_pthread e <> 0)
  | MainFatal msg => msg = Options.too_many
  | MainAborted | MainWaiting => True
  end.
Proof.
  unfold main. cbv zeta.
  destruct (Options.parse_options lib_option ovs_rundir
              (env_argv e) (env_answers e) (env_optind e) None)
    as [db up|st| |msg] eqn:Hp; cbn [fst]; try done.
  - destruct (Z.eqb_spec (rc_unixctl e) 0) as [Hu|Hu]; cbv iota beta delta [negb].
    2: { cbn [fst]. right. by left. }
    destruct (Z.eq_dec (rc_pthread e) 0) as [Ht|Ht].
    + rewrite Ht. daemon_fields. rewrite lacpd_init_ok.
      match goal with |- context [main_tail ?rc ?sg ?w] =>
        destruct (main_tail_never_exits rc sg w) as (o & w' & -> & [->| ->]) end.
      all: done.
    + daemon_fields. rewrite lacpd_init_failed by done. cbn [fst].
      right. right. done.
  - unfold Options.parse_options in Hp.
    destruct (Options.scan_options lib_option (env_answers e) None)
      as [p'|o] eqn:Hs.
    + unfold Options.database_argument in Hp.
      repeat match type of Hp with
             | context [if ?b then _ else _] => destruct b
             | context [match ?l with [] => _ | _ => _ end] => destruct l
             end; done.
    + subst o.
      destruct (OptionsMore.scan_options_ends _ _ _ _ Hs) as [[= ->]|[[= ->]|?]];
        [|by right; left|done].
      left. split; [done|]. by eapply scan_options_help.
  - unfold Options.parse_options in Hp.
    destruct (Options.scan_options lib_option (env_answers e) None)
      as [p'|o] eqn:Hs.
    + unfold Options.database_argument in Hp.
      repeat match type of Hp with
             | context [if ?b then _ else _] => destruct b
             | context [match ?l with [] => _ | _ => _ end] => destruct l
             end; by try injection Hp as <-.
    + subst o.
      by destruct (OptionsMore.scan_options_ends _ _ _ _ Hs) as [?|[?|?]].
Qed.

End MainFacts.


Lemma main_early_failure_only_logs_witness :
  fst (main (fun _ => false) "/var/run/openvswitch" (with_shutdown 0)
         two_args_run (cold [Some junk])) = MainFatal Options.too_many
  /\ (reached_loop
        (fst (main (fun _ => false) "/var/run/openvswitch" (with_shutdown 0)
                two_args_run (cold [Some junk]))) = false
      /\ vlog (proc (snd (main (fun _ => false) "/var/run/openvswitch"
                            (with_shutdown 0) two_args_run (cold [Some junk]))))
         = vlog (proc (cold [Some junk]))
           ++ match fst (main (fun _ => false) "/var/run/openvswitch"
                           (with_shutdown 0) two_args_run (cold [Some junk])) with
              | MainFatal msg => [fatal_line msg]
              | _ => []
              end
      /\ with_vlog (vlog (proc (cold [Some junk])))
           (proc (snd (main (fun _ => false) "/var/run/openvswitch"
                         (with_shutdown 0) two_args_run (cold [Some junk]))))
         = proc (cold [Some junk])).
Proof.
  split; [vm_compute; reflexivity|].
  apply (main_early_failure_only_logs (fun _ => false)
           "/var/run/openvswitch" (with_shutdown 0) two_args_run
           (cold [Some junk])).
  left. intros db up. vm_compute. discriminate.
Defined.

End DaemonFacts.
